(** * RemNote MCP bridge: the plugin connection manager

    A shallow embedding of [PluginConnectionManager] (server/src/index.ts)
    together with the parts of the Node runtime it leans on: the promise a
    call to [sendRequest] hands back, the timers armed with [setTimeout], the
    sockets of the [ws] library and the console.

    The manager is single-threaded and event-driven.  Its state changes only
    inside event handlers, each of which runs to completion, so the embedding
    is a state record and one total function per handler.  Time is a clock in
    milliseconds that moves only between handlers; a timer fires when the
    clock reaches its deadline, before any event that comes later.

    The reconnecting client that the plugin holds on the other end of the
    socket follows in [Module Client]. *)

From stdpp Require Import gmap strings list fin_maps pretty.

Open Scope string_scope.
Open Scope list_scope.
Set Warnings "-register-all".

(** ** Values on the wire *)

(** [unknown] / [Record<string, unknown>]: whatever [JSON.parse] can hand
    back.  The manager never looks inside. *)
Inductive JSON : Type :=
| JNull
| JBool (b : bool)
| JNumber (z : Z)
| JString (s : string)
| JArray (items : list JSON)
| JObject (fields : list (string * JSON)).

(** interface BridgeRequest *)
Record BridgeRequest := {
  req_id : string;
  req_action : string;
  req_payload : list (string * JSON);
}.

(** interface BridgeResponse; an optional field is absent when [None]. *)
Record BridgeResponse := {
  id : string;
  result : option JSON;
  error : option string;
}.

(** interface PendingRequest.  [resolve] and [reject] are the two settling
    functions of one promise, so the entry stores the index of that promise;
    [timeout] is the handle [setTimeout] returned. *)
Record PendingRequest := {
  promise : nat;
  timeout : nat;
}.

(** ** Sockets *)

Inductive ReadyState := CONNECTING | OPEN | CLOSING | CLOSED.

(** What the manager writes on a socket ([JSON.stringify] of these). *)
Inductive Frame :=
| FConnected (connectionId : string)
| FRequest (request : BridgeRequest)
| FPing.

Record WebSocket := {
  readyState : ReadyState;
  sent : list Frame;
}.

Definition is_OPEN (ws : WebSocket) : bool :=
  match readyState ws with OPEN => true | _ => false end.

(** [ws.send(data)]: the frame goes out on an open socket; on any other
    socket nothing is transmitted.  The manager checks [readyState] before
    every send but the one in [addConnection], which is on a socket the
    server has just accepted. *)
Definition ws_send (f : Frame) (ws : WebSocket) : WebSocket :=
  if is_OPEN ws
  then {| readyState := readyState ws; sent := sent ws ++ [f] |}
  else ws.

(** ** JavaScript [Map] with string keys

    A [Map] iterates in insertion order, and the close handler reads
    [Array.from(this.connections.keys())[0]], so the connection table is an
    association list kept in insertion order with unique keys. *)
Section JsMap.
Context {V : Type}.

Fixpoint map_get (k : string) (m : list (string * V)) : option V :=
  match m with
  | [] => None
  | (k', v) :: m' => if String.eqb k' k then Some v else map_get k m'
  end.

Definition map_has (k : string) (m : list (string * V)) : bool :=
  match map_get k m with Some _ => true | None => false end.

(** [set] keeps the position of a key that is already there. *)
Fixpoint map_set (k : string) (v : V) (m : list (string * V)) : list (string * V) :=
  match m with
  | [] => [(k, v)]
  | (k', v') :: m' =>
      if String.eqb k' k then (k', v) :: m' else (k', v') :: map_set k v m'
  end.

Fixpoint map_delete (k : string) (m : list (string * V)) : list (string * V) :=
  match m with
  | [] => []
  | (k', v') :: m' =>
      if String.eqb k' k then map_delete k m' else (k', v') :: map_delete k m'
  end.

Definition map_keys (m : list (string * V)) : list string := map fst m.
End JsMap.

(** ** Promises, timers, console *)

(** How a promise was settled: [resolve(value)] or [reject(new Error(message))]. *)
Inductive Settlement :=
| Resolved (value : option JSON)
| Rejected (message : string).

(** A timer armed by [sendRequest].  Its callback closes over [requestId]
    and over [reject], i.e. over the promise of the call. *)
Record Timer := {
  timerId : nat;
  deadline : Z;
  t_requestId : string;
  t_promise : nat;
}.

Inductive Level := LOG | WARN | ERROR.

(** ** configuration *)

Definition REQUEST_TIMEOUT_MS : Z := 30000.

Definition NO_PLUGIN_MESSAGE : string :=
  "No RemNote plugin connected. Open RemNote and ensure the MCP Bridge plugin is active.".
Definition TIMEOUT_MESSAGE : string :=
  "Request timeout after " +:+ pretty REQUEST_TIMEOUT_MS +:+ "ms".
Definition NOT_READY_MESSAGE : string := "WebSocket connection not ready".

(** ** State

    The first three fields are the private fields of the class.  The others
    are the runtime around it: the armed timers (in the order they were
    armed), the clock in milliseconds, how many identifiers [uuidv4] has
    produced, how many promises [sendRequest] and how many handles
    [setTimeout] returned, every call of a [resolve] or [reject] so far (in
    order, with the promise it was called on), and the console. *)
Record State := {
  connections : list (string * WebSocket);
  pendingRequests : gmap string PendingRequest;
  activeConnectionId : option string;
  timers : list Timer;
  clock : Z;
  uuids : nat;
  promises : nat;
  timerIds : nat;
  settled : list (nat * Settlement);
  console : list (Level * string);
}.

Definition initial : State := {|
  connections := [];
  pendingRequests := ∅;
  activeConnectionId := None;
  timers := [];
  clock := 0;
  uuids := 0;
  promises := 0;
  timerIds := 0;
  settled := [];
  console := [];
|}.

(** Field updates ([this.x = ...] and the runtime's counterparts). *)
Definition set_connections (c : list (string * WebSocket)) (s : State) : State :=
  {| connections := c; pendingRequests := pendingRequests s;
     activeConnectionId := activeConnectionId s; timers := timers s;
     clock := clock s; uuids := uuids s; promises := promises s;
     timerIds := timerIds s; settled := settled s; console := console s |}.

Definition set_pendingRequests (p : gmap string PendingRequest) (s : State) : State :=
  {| connections := connections s; pendingRequests := p;
     activeConnectionId := activeConnectionId s; timers := timers s;
     clock := clock s; uuids := uuids s; promises := promises s;
     timerIds := timerIds s; settled := settled s; console := console s |}.

Definition set_activeConnectionId (a : option string) (s : State) : State :=
  {| connections := connections s; pendingRequests := pendingRequests s;
     activeConnectionId := a; timers := timers s;
     clock := clock s; uuids := uuids s; promises := promises s;
     timerIds := timerIds s; settled := settled s; console := console s |}.

Definition set_timers (t : list Timer) (s : State) : State :=
  {| connections := connections s; pendingRequests := pendingRequests s;
     activeConnectionId := activeConnectionId s; timers := t;
     clock := clock s; uuids := uuids s; promises := promises s;
     timerIds := timerIds s; settled := settled s; console := console s |}.

Definition set_clock (c : Z) (s : State) : State :=
  {| connections := connections s; pendingRequests := pendingRequests s;
     activeConnectionId := activeConnectionId s; timers := timers s;
     clock := c; uuids := uuids s; promises := promises s;
     timerIds := timerIds s; settled := settled s; console := console s |}.

(** One more identifier drawn from [uuidv4]. *)
Definition drew_uuid (s : State) : State :=
  {| connections := connections s; pendingRequests := pendingRequests s;
     activeConnectionId := activeConnectionId s; timers := timers s;
     clock := clock s; uuids := S (uuids s); promises := promises s;
     timerIds := timerIds s; settled := settled s; console := console s |}.

(** One more promise handed to a caller of [sendRequest]. *)
Definition new_promise (s : State) : State :=
  {| connections := connections s; pendingRequests := pendingRequests s;
     activeConnectionId := activeConnectionId s; timers := timers s;
     clock := clock s; uuids := uuids s; promises := S (promises s);
     timerIds := timerIds s; settled := settled s; console := console s |}.

(** [resolve(v)] / [reject(e)] called on promise [p]. *)
Definition settle (p : nat) (o : Settlement) (s : State) : State :=
  {| connections := connections s; pendingRequests := pendingRequests s;
     activeConnectionId := activeConnectionId s; timers := timers s;
     clock := clock s; uuids := uuids s; promises := promises s;
     timerIds := timerIds s; settled := settled s ++ [(p, o)];
     console := console s |}.

(** [console.log], [console.warn], [console.error]. *)
Definition print (l : Level) (msg : string) (s : State) : State :=
  {| connections := connections s; pendingRequests := pendingRequests s;
     activeConnectionId := activeConnectionId s; timers := timers s;
     clock := clock s; uuids := uuids s; promises := promises s;
     timerIds := timerIds s; settled := settled s;
     console := console s ++ [(l, msg)] |}.

(** [setTimeout(cb, REQUEST_TIMEOUT_MS)] where [cb] is the timeout handler of
    [sendRequest] for [requestId] and promise [p]; the handle is the value of
    [timerIds] before the call. *)
Definition setTimeout (requestId : string) (p : nat) (s : State) : State :=
  {| connections := connections s; pendingRequests := pendingRequests s;
     activeConnectionId := activeConnectionId s;
     timers := timers s ++ [{| timerId := timerIds s;
                               deadline := clock s + REQUEST_TIMEOUT_MS;
                               t_requestId := requestId;
                               t_promise := p |}];
     clock := clock s; uuids := uuids s; promises := promises s;
     timerIds := S (timerIds s); settled := settled s; console := console s |}.

(** [clearTimeout(handle)]: the timer is disarmed; a handle that is not
    armed is ignored. *)
Definition clearTimeout (handle : nat) (s : State) : State :=
  set_timers (filter (fun t => timerId t <> handle) (timers s)) s.

(** ** The manager *)

Section Manager.

(** [uuidv4]: the identifier returned by its [n]-th call (counting from
    0).  The library draws them at random; the manager only ever relies on
    what each call returned. *)
Variable uuidv4 : nat -> string.

(** [!this.activeConnectionId]: [null] and the empty string are falsy. *)
Definition falsy (a : option string) : bool :=
  match a with
  | None => true
  | Some k => String.eqb k ""
  end.

(** addConnection(ws): returns the connection id and the new state. *)
Definition addConnection (ws : WebSocket) (s : State) : string * State :=
  let connectionId := uuidv4 (uuids s) in
  let s := drew_uuid s in
  let s := set_connections (map_set connectionId ws (connections s)) s in
  let s := if falsy (activeConnectionId s)
           then set_activeConnectionId (Some connectionId) s
           else s in
  let s := print LOG ("[plugin] connected: " +:+ connectionId +:+ " (total: "
                      +:+ pretty (length (connections s)) +:+ ")") s in
  let s := set_connections
             (map_set connectionId (ws_send (FConnected connectionId) ws)
                      (connections s)) s in
  (connectionId, s).

(** The ['close'] listener that [addConnection] installed for
    [connectionId]. *)
Definition on_close (connectionId : string) (s : State) : State :=
  let s := set_connections (map_delete connectionId (connections s)) s in
  let s := match activeConnectionId s with
           | Some a =>
               if String.eqb a connectionId then
                 let remaining := map_keys (connections s) in
                 set_activeConnectionId
                   (match remaining with k :: _ => Some k | [] => None end) s
               else s
           | None => s
           end in
  print LOG ("[plugin] disconnected: " +:+ connectionId +:+ " (remaining: "
             +:+ pretty (length (connections s)) +:+ ")") s.

(** hasActiveConnection() *)
Definition hasActiveConnection (s : State) : bool :=
  match activeConnectionId s with
  | None => false
  | Some a => map_has a (connections s)
  end.

(** sendRequest(action, payload).  The promise handed to the caller is
    number [promises s]; the function being [async], the [throw] of the
    first branch is a rejection of that promise. *)
Definition sendRequest (action : string) (payload : list (string * JSON))
    (s : State) : State :=
  let p := promises s in
  let s := new_promise s in
  if negb (hasActiveConnection s) then
    settle p (Rejected NO_PLUGIN_MESSAGE) s
  else
    let requestId := uuidv4 (uuids s) in
    let s := drew_uuid s in
    let request := {| req_id := requestId; req_action := action;
                      req_payload := payload |} in
    let timeout := timerIds s in
    let s := setTimeout requestId p s in
    let s := set_pendingRequests
               (<[requestId := {| promise := p; timeout := timeout |}]>
                  (pendingRequests s)) s in
    let ws := match activeConnectionId s with
              | Some a => map_get a (connections s)
              | None => None
              end in
    let not_ready :=
      let s := clearTimeout timeout s in
      let s := set_pendingRequests (delete requestId (pendingRequests s)) s in
      settle p (Rejected NOT_READY_MESSAGE) s in
    match ws with
    | Some sock =>
        if is_OPEN sock then
          let s := match activeConnectionId s with
                   | Some a =>
                       set_connections
                         (map_set a (ws_send (FRequest request) sock)
                                  (connections s)) s
                   | None => s
                   end in
          print LOG ("[plugin] sent: " +:+ action +:+ " (" +:+ requestId +:+ ")") s
        else not_ready
    | None => not_ready
    end.

(** [if (response.error)]: an absent field and the empty string are falsy. *)
Definition truthy (e : option string) : bool :=
  match e with
  | None => false
  | Some m => negb (String.eqb m "")
  end.

(** handleResponse(response) *)
Definition handleResponse (response : BridgeResponse) (s : State) : State :=
  match pendingRequests s !! id response with
  | None =>
      print WARN ("[plugin] received response for unknown request: "
                  +:+ id response) s
  | Some pending =>
      let s := clearTimeout (timeout pending) s in
      let s := set_pendingRequests (delete (id response) (pendingRequests s)) s in
      let s := if truthy (error response)
               then settle (promise pending)
                           (Rejected (default "" (error response))) s
               else settle (promise pending) (Resolved (result response)) s in
      print LOG ("[plugin] received response: " +:+ id response) s
  end.

(** The ['message'] listener.  [data] is what [JSON.parse] made of the
    frame: [None] when it threw, otherwise the parsed response. *)
Definition on_message (data : option BridgeResponse) (s : State) : State :=
  match data with
  | Some message => handleResponse message s
  | None => print ERROR "[plugin] failed to parse message:" s
  end.

(** pingAll() *)
Definition pingAll (s : State) : State :=
  set_connections
    (map (fun '(k, ws) => (k, if is_OPEN ws then ws_send FPing ws else ws))
         (connections s)) s.

(** The timeout handler armed by [sendRequest], run when timer [t] fires
    (a timer that fires is no longer armed). *)
Definition on_timeout (t : Timer) (s : State) : State :=
  let s := set_timers (filter (fun t' => timerId t' <> timerId t) (timers s)) s in
  let s := set_pendingRequests (delete (t_requestId t) (pendingRequests s)) s in
  settle (t_promise t) (Rejected TIMEOUT_MESSAGE) s.

Fixpoint fire (due : list Timer) (s : State) : State :=
  match due with
  | [] => s
  | t :: rest => fire rest (on_timeout t s)
  end.

(** [dt] milliseconds pass: every timer whose deadline has been reached
    fires, oldest first. *)
Definition elapse (dt : N) (s : State) : State :=
  let s := set_clock (clock s + Z.of_N dt) s in
  fire (filter (fun t => (deadline t <= clock s)%Z) (timers s)) s.

(** The environment changes the [readyState] of the socket registered
    under [connectionId]. *)
Definition on_readyState (connectionId : string) (r : ReadyState) (s : State) : State :=
  match map_get connectionId (connections s) with
  | Some ws =>
      set_connections
        (map_set connectionId {| readyState := r; sent := sent ws |}
                 (connections s)) s
  | None => s
  end.

(** ** Events and runs *)

Inductive Event :=
| Connection (ws : WebSocket)               (* wss.on('connection') *)
| Close (connectionId : string)             (* ws.on('close') *)
| Message (data : option BridgeResponse)    (* ws.on('message') *)
| Call (action : string) (payload : list (string * JSON))  (* a tool handler *)
| Heartbeat                                 (* setInterval(pingAll) *)
| Elapse (dt : N)
| SocketState (connectionId : string) (r : ReadyState).

Definition step (e : Event) (s : State) : State :=
  match e with
  | Connection ws => snd (addConnection ws s)
  | Close c => on_close c s
  | Message d => on_message d s
  | Call a p => sendRequest a p s
  | Heartbeat => pingAll s
  | Elapse dt => elapse dt s
  | SocketState c r => on_readyState c r s
  end.

Definition run (tr : list Event) (s : State) : State :=
  fold_left (fun s e => step e s) tr s.

Definition reachable (s : State) : Prop :=
  exists tr, s = run tr initial.

End Manager.

(** * The reconnecting client of the plugin *)

Module Client.

(** Modelled from the spec: the status of the reconnecting transport client
    ([WebSocketClient], bridge/websocket-client.ts), known here through the
    plugin, which constructs it and calls [connect], [setMessageHandler] and
    [disconnect]. *)
Inductive Status := disconnected | connecting | connected.

(** Modelled from the spec: the configuration surface of the client, with
    the field names the plugin passes to the constructor. *)
Record Config := {
  maxReconnectAttempts : nat;
  initialReconnectDelay : Z;
  maxReconnectDelay : Z;
}.

(** The values [initializeConnection] (the plugin's entry point,
    widgets/index.tsx) constructs the client with. *)
Definition plugin_config : Config := {|
  maxReconnectAttempts := 10;
  initialReconnectDelay := 1000;
  maxReconnectDelay := 30000;
|}.

(** Modelled from the spec: the reconnect state of [WebSocketClient]: the
    status, the attempt count, the current backoff delay, the reconnect
    that is scheduled (with the delay it waits for), whether automatic
    reconnection is on, and the status notifications emitted so far. *)
Record State := {
  status : Status;
  attempts : nat;
  delay : Z;
  scheduled : option Z;
  automatic : bool;
  notified : list Status;
}.

(** Modelled from the spec: a new [WebSocketClient] starts disconnected,
    with no attempt made and the initial backoff delay. *)
Definition init (cfg : Config) : State := {|
  status := disconnected;
  attempts := 0;
  delay := initialReconnectDelay cfg;
  scheduled := None;
  automatic := true;
  notified := [];
|}.

(** Modelled from the spec: [WebSocketClient.connect()], "idempotent entry
    into connecting"; it switches automatic reconnection back on. *)
Definition connect (st : State) : State :=
  match status st with
  | disconnected =>
      {| status := connecting; attempts := attempts st; delay := delay st;
         scheduled := scheduled st; automatic := true;
         notified := notified st |}
  | _ =>
      {| status := status st; attempts := attempts st; delay := delay st;
         scheduled := scheduled st; automatic := true;
         notified := notified st |}
  end.

(** Modelled from the spec: the open handler of [WebSocketClient]: "On
    successful open: transitions to connected, resets attempt count and
    backoff delay to their initial values, and emits a status
    notification". *)
Definition on_open (cfg : Config) (st : State) : State :=
  match status st with
  | connecting =>
      {| status := connected; attempts := 0;
         delay := initialReconnectDelay cfg; scheduled := scheduled st;
         automatic := automatic st; notified := notified st ++ [connected] |}
  | _ => st
  end.

(** Modelled from the spec: the close/error handler of [WebSocketClient]:
    "On close/error while connected or connecting: transitions to
    disconnected, emits a status notification, and if attempt count <
    configured maximum, schedules a reconnect after the current backoff
    delay, then doubles the delay capped at a configured maximum; attempt
    count increments on every scheduled attempt".  Nothing is scheduled
    after [disconnect()]. *)
Definition on_drop (cfg : Config) (st : State) : State :=
  match status st with
  | disconnected => st
  | _ =>
      if automatic st && (attempts st <? maxReconnectAttempts cfg)%nat then
        {| status := disconnected; attempts := S (attempts st);
           delay := Z.min (2 * delay st) (maxReconnectDelay cfg);
           scheduled := Some (delay st); automatic := automatic st;
           notified := notified st ++ [disconnected] |}
      else
        {| status := disconnected; attempts := attempts st; delay := delay st;
           scheduled := scheduled st; automatic := automatic st;
           notified := notified st ++ [disconnected] |}
  end.

(** Modelled from the spec: the scheduled reconnect of [WebSocketClient]
    coming due: the automatic attempt is a [connect()]. *)
Definition on_timer (st : State) : State :=
  match scheduled st with
  | Some _ =>
      connect {| status := status st; attempts := attempts st;
                 delay := delay st; scheduled := None;
                 automatic := automatic st; notified := notified st |}
  | None => st
  end.

(** Modelled from the spec: [WebSocketClient.disconnect()], "closes the
    socket, cancels any scheduled reconnect, and prevents further automatic
    reconnection until connect() is called again". *)
Definition disconnect (st : State) : State :=
  {| status := disconnected; attempts := attempts st; delay := delay st;
     scheduled := None; automatic := false;
     notified := match status st with
                 | disconnected => notified st
                 | _ => notified st ++ [disconnected]
                 end |}.

(** Modelled from the spec: what can happen to a [WebSocketClient]. *)
Inductive Event := Connect | Opened | Dropped | Timer | Disconnect.

(** Modelled from the spec: one event handled by [WebSocketClient]. *)
Definition step (cfg : Config) (e : Event) (st : State) : State :=
  match e with
  | Connect => connect st
  | Opened => on_open cfg st
  | Dropped => on_drop cfg st
  | Timer => on_timer st
  | Disconnect => disconnect st
  end.

(** Modelled from the spec: a sequence of events handled by
    [WebSocketClient]. *)
Definition run (cfg : Config) (tr : list Event) (st : State) : State :=
  fold_left (fun st e => step cfg e st) tr st.

(** Modelled from the spec: [connect()] on a [WebSocketClient] followed by
    [k] connection attempts that fail, each followed by the reconnect it
    schedules coming due. *)
Fixpoint failing (k : nat) : list Event :=
  match k with
  | 0 => [Connect]
  | S k' => failing k' ++ [Dropped; Timer]
  end.

End Client.

(** * The tools of the MCP server

    [createMcpServer] (server/src/index.ts) registers six tools.  Each handler
    builds a payload from its validated arguments and awaits
    [pluginManager.sendRequest(action, payload)]. *)

Inductive Tool :=
| remnote_create_note
| remnote_search
| remnote_read_note
| remnote_update_note
| remnote_append_journal
| remnote_status.

(** The action each handler passes to [sendRequest]. *)
Definition tool_action (t : Tool) : string :=
  match t with
  | remnote_create_note => "create_note"
  | remnote_search => "search"
  | remnote_read_note => "read_note"
  | remnote_update_note => "update_note"
  | remnote_append_journal => "append_journal"
  | remnote_status => "get_status"
  end.

(** The properties of the payload object each handler writes, in order. *)
Definition tool_fields (t : Tool) : list string :=
  match t with
  | remnote_create_note => ["title"; "content"; "parentId"; "tags"]
  | remnote_search => ["query"; "limit"; "includeContent"]
  | remnote_read_note => ["remId"; "depth"]
  | remnote_update_note => ["remId"; "title"; "appendContent"; "addTags"; "removeTags"]
  | remnote_append_journal => ["content"; "timestamp"]
  | remnote_status => []
  end.

(** The payload as it travels: the object literal [{title, content, ...}]
    holds [undefined] for an optional argument that was not given, and
    [JSON.stringify] leaves such properties out of the request. *)
Definition tool_payload (t : Tool) (args : list (string * JSON)) : list (string * JSON) :=
  flat_map (fun f => match map_get f args with
                     | Some v => [(f, v)]
                     | None => []
                     end)
           (tool_fields t).

(** The dispatch a tool handler makes on the manager.  [remnote_status] asks
    [hasActiveConnection()] first and calls [sendRequest] only when it says
    yes; the other handlers call [sendRequest] straight away. *)
Definition tool_dispatch (uuidv4 : nat -> string) (t : Tool)
    (args : list (string * JSON)) (s : State) : State :=
  match t with
  | remnote_status =>
      if hasActiveConnection s then sendRequest uuidv4 "get_status" [] s else s
  | _ => sendRequest uuidv4 (tool_action t) (tool_payload t args) s
  end.

(** * The plugin (widgets/index.tsx) *)

Module Plugin.

(** ConnectionState['status']: 'disconnected', 'connecting', 'connected',
    'error'. *)
Inductive Status :=
| status_disconnected | status_connecting | status_connected | status_error.

(** The level of a log entry: 'info', 'error', 'warn', 'success'. *)
Inductive LogLevel := info | error | warn | success.

Record LogEntry := {
  timestamp : Z;
  message : string;
  level : LogLevel;
}.

Record Stats := {
  created : nat;
  updated : nat;
  journal : nat;
  searches : nat;
}.

(** [connectionState], the [remAdapter] global ([false] when it is [null])
    and the console. *)
Record State := {
  status : Status;
  stats : Stats;
  logs : list LogEntry;
  remAdapter : bool;
  console : list string;
}.

(** The state the module starts in. *)
Definition initial : State := {|
  status := status_disconnected;
  stats := {| created := 0; updated := 0; journal := 0; searches := 0 |};
  logs := [];
  remAdapter := false;
  console := [];
|}.

(** [array.slice(-n)]: the last [n] elements. *)
Definition slice_last {A} (n : nat) (l : list A) : list A :=
  drop (length l - n) l.

(** addLog(message, level), called when the clock shows [now]. *)
Definition addLog (now : Z) (msg : string) (lvl : LogLevel) (st : State) : State :=
  let pushed := logs st ++ [{| timestamp := now; message := msg; level := lvl |}] in
  {| status := status st;
     stats := stats st;
     logs := if (50 <? length pushed)%nat then slice_last 50 pushed else pushed;
     remAdapter := remAdapter st;
     console := console st ++ ["[MCP Bridge] " +:+ msg] |}.

(** [addLog] called once for each entry of [es], in order. *)
Definition addLogs (es : list LogEntry) (st : State) : State :=
  fold_left (fun st e => addLog (timestamp e) (message e) (level e) st) es st.

(** A call of a method of [RemAdapter]: its name and the properties of its
    argument object, each with the value read from the payload ([None] for
    [undefined]). *)
Record AdapterCall := {
  method : string;
  arguments : list (string * option JSON);
}.

(** [payload.name], paired with the name. *)
Definition field (payload : list (string * JSON)) (name : string)
    : string * option JSON :=
  (name, map_get name payload).

Definition with_stats (f : Stats -> Stats) (st : State) : State :=
  {| status := status st; stats := f (stats st); logs := logs st;
     remAdapter := remAdapter st; console := console st |}.

(** handleRequest(request).  [adapter] is what the method of [RemAdapter]
    that is awaited comes back with: a result, or the message of the error it
    throws.  The counter is incremented after the [await], so only when the
    method returned. *)
Definition handleRequest (now : Z)
    (adapter : AdapterCall -> option JSON + string)
    (request : BridgeRequest) (st : State)
    : (option JSON + string) * State :=
  if negb (remAdapter st) then (inr "RemAdapter not initialized", st)
  else
    let payload := req_payload request in
    let st := addLog now ("Received action: " +:+ req_action request) info st in
    let action := req_action request in
    if String.eqb action "create_note" then
      match adapter {| method := "createNote";
                       arguments := [field payload "title"; field payload "content";
                                     field payload "parentId"; field payload "tags"] |}
      with
      | inl result =>
          (inl result,
           with_stats (fun x => {| created := S (created x); updated := updated x;
                                   journal := journal x; searches := searches x |}) st)
      | inr e => (inr e, st)
      end
    else if String.eqb action "append_journal" then
      match adapter {| method := "appendJournal";
                       arguments := [field payload "content";
                                     field payload "timestamp"] |}
      with
      | inl result =>
          (inl result,
           with_stats (fun x => {| created := created x; updated := updated x;
                                   journal := S (journal x); searches := searches x |}) st)
      | inr e => (inr e, st)
      end
    else if String.eqb action "search" then
      match adapter {| method := "search";
                       arguments := [field payload "query"; field payload "limit";
                                     field payload "includeContent"] |}
      with
      | inl result =>
          (inl result,
           with_stats (fun x => {| created := created x; updated := updated x;
                                   journal := journal x; searches := S (searches x) |}) st)
      | inr e => (inr e, st)
      end
    else if String.eqb action "read_note" then
      (adapter {| method := "readNote";
                  arguments := [field payload "remId"; field payload "depth"] |},
       st)
    else if String.eqb action "update_note" then
      match adapter {| method := "updateNote";
                       arguments := [field payload "remId"; field payload "title";
                                     field payload "appendContent";
                                     field payload "addTags";
                                     field payload "removeTags"] |}
      with
      | inl result =>
          (inl result,
           with_stats (fun x => {| created := created x; updated := S (updated x);
                                   journal := journal x; searches := searches x |}) st)
      | inr e => (inr e, st)
      end
    else if String.eqb action "get_status" then
      (adapter {| method := "getStatus"; arguments := [] |}, st)
    else (inr ("Unknown action: " +:+ action), st).

(** What happens in the plugin: a request from the server is handled (with
    what the adapter answers), something calls [addLog] (the client through
    [onLog], [initializeConnection]), the client reports its status through
    [onStatusChange], [initializeConnection] constructs the adapter, or
    [onDeactivate] drops it. *)
Inductive Event :=
| Request (now : Z) (adapter : AdapterCall -> option JSON + string)
          (request : BridgeRequest)
| Log (now : Z) (msg : string) (lvl : LogLevel)
| StatusChange (status : Status)
| AdapterReady
| AdapterDropped.

Definition set_remAdapter (b : bool) (st : State) : State :=
  {| status := status st; stats := stats st; logs := logs st;
     remAdapter := b; console := console st |}.

Definition step (e : Event) (st : State) : State :=
  match e with
  | Request now adapter request => snd (handleRequest now adapter request st)
  | Log now msg lvl => addLog now msg lvl st
  | StatusChange x =>
      {| status := x; stats := stats st; logs := logs st;
         remAdapter := remAdapter st; console := console st |}
  | AdapterReady => set_remAdapter true st
  | AdapterDropped => set_remAdapter false st
  end.

Definition run (tr : list Event) (st : State) : State :=
  fold_left (fun st e => step e st) tr st.



(** The settings as [plugin.settings.getSetting] returns them: [None] for a
    setting that has no value. *)
Record StoredSettings := {
  stored_wsUrl : option string;
  stored_autoTagEnabled : option bool;
  stored_autoTag : option string;
  stored_journalPrefix : option string;
  stored_journalTimestamp : option bool;
  stored_defaultParentId : option string;
}.

(** interface MCPSettings *)
Record MCPSettings := {
  autoTagEnabled : bool;
  autoTag : string;
  journalPrefix : string;
  journalTimestamp : bool;
  wsUrl : string;
  defaultParentId : string;
}.

(** [value || fallback] on an optional string: [undefined] and the empty
    string give the fallback. *)
Definition or_else (value : option string) (fallback : string) : string :=
  match value with
  | Some v => if String.eqb v "" then fallback else v
  | None => fallback
  end.

(** [value ?? fallback] on an optional boolean: only [undefined] gives the
    fallback. *)
Definition nullish_else (value : option bool) (fallback : bool) : bool :=
  match value with
  | Some v => v
  | None => fallback
  end.

(** The settings [initializeConnection] builds.  The three defaults are
    constants of the settings module of the plugin. *)
Definition resolve_settings
    (DEFAULT_WS_URL DEFAULT_AUTO_TAG DEFAULT_JOURNAL_PREFIX : string)
    (stored : StoredSettings) : MCPSettings :=
  {| autoTagEnabled := nullish_else (stored_autoTagEnabled stored) true;
     autoTag := or_else (stored_autoTag stored) DEFAULT_AUTO_TAG;
     journalPrefix := or_else (stored_journalPrefix stored) DEFAULT_JOURNAL_PREFIX;
     journalTimestamp := nullish_else (stored_journalTimestamp stored) true;
     wsUrl := or_else (stored_wsUrl stored) DEFAULT_WS_URL;
     defaultParentId := or_else (stored_defaultParentId stored) "" |}.

End Plugin.

(** The method of [RemAdapter] behind each tool. *)
Definition adapter_method (t : Tool) : string :=
  match t with
  | remnote_create_note => "createNote"
  | remnote_search => "search"
  | remnote_read_note => "readNote"
  | remnote_update_note => "updateNote"
  | remnote_append_journal => "appendJournal"
  | remnote_status => "getStatus"
  end.

(** * The HTTP side of the server ([main], server/src/index.ts) *)

Module Http.

(** [res.status(code).send(body)], a request handed to the transport of its
    session, or no reply written by the route itself. *)
Inductive Reply :=
| reply (code : nat) (body : string)
| forwarded (sessionId : string)
| silent.

(** How [transport.handlePostMessage] and the body of the [/sse] route can
    end: normally, or with an exception, before or after the response
    headers were sent. *)
Inductive Outcome := completed | threw (headersSent : bool).

(** GET /sse for a transport whose [sessionId] is [sid].  The [transports]
    map is the set of its keys, the transports themselves being opaque; the
    session is stored before the MCP server is connected to the transport. *)
Definition get_sse (sid : string) (o : Outcome) (t : gset string)
    : Reply * gset string :=
  let t := {[sid]} ∪ t in
  match o with
  | completed => (silent, t)
  | threw headersSent =>
      (if headersSent then silent else reply 500 "SSE connection failed", t)
  end.

(** [transport.onclose] of session [sid]. *)
Definition on_transport_close (sid : string) (t : gset string) : gset string :=
  t ∖ {[sid]}.

(** POST /messages with [req.query.sessionId]. *)
Definition post_messages (sessionId : option string) (o : Outcome)
    (t : gset string) : Reply :=
  match sessionId with
  | None => reply 400 "Missing sessionId"
  | Some sid =>
      if String.eqb sid "" then reply 400 "Missing sessionId"
      else if decide (sid ∈ t) then
        match o with
        | completed => forwarded sid
        | threw headersSent =>
            if headersSent then forwarded sid else reply 500 "Request failed"
        end
      else reply 404 "Session not found"
  end.

(** The body of GET /health. *)
Record Health := {
  health_status : string;
  pluginConnected : bool;
  activeSessions : nat;
}.

Definition get_health (s : State) (t : gset string) : Health :=
  {| health_status := "ok";
     pluginConnected := hasActiveConnection s;
     activeSessions := size t |}.

(** The events that change the session table. *)
Inductive Event :=
| Sse (sid : string) (o : Outcome)
| TransportClosed (sid : string)
| Post (sessionId : option string) (o : Outcome).

Definition step (e : Event) (t : gset string) : gset string :=
  match e with
  | Sse sid o => snd (get_sse sid o t)
  | TransportClosed sid => on_transport_close sid t
  | Post _ _ => t
  end.

Definition run (tr : list Event) (t : gset string) : gset string :=
  fold_left (fun t e => step e t) tr t.

(** The [/sse] request that opens session [sid], and the close of it. *)
Definition opens (sid : string) (e : Event) : bool :=
  match e with Sse sid' _ => String.eqb sid' sid | _ => false end.

Definition closes (sid : string) (e : Event) : bool :=
  match e with TransportClosed sid' => String.eqb sid' sid | _ => false end.

(** Whether session [sid] is open after the events [tr], read off the events:
    the last event that opens or closes it is an opening. *)
Fixpoint open_after (sid : string) (tr : list Event) (before : bool) : bool :=
  match tr with
  | [] => before
  | e :: rest =>
      open_after sid rest
        (if opens sid e then true else if closes sid e then false else before)
  end.

End Http.

(** * The manager, continued

    ** Invariants *)

(** The active connection, when there is one, is a tracked connection. *)
Definition active_tracked (s : State) : Prop :=
  match activeConnectionId s with
  | None => True
  | Some a => In a (map_keys (connections s))
  end.

(** [sendRequest] can write on the active connection: it is tracked and its
    socket is open. *)
Definition writable (s : State) : bool :=
  match activeConnectionId s with
  | Some a =>
      match map_get a (connections s) with
      | Some ws => is_OPEN ws
      | None => false
      end
  | None => false
  end.

(** What [handleResponse] settles the promise of a matching call with. *)
Definition outcome_of (response : BridgeResponse) : Settlement :=
  if truthy (error response)
  then Rejected (default "" (error response))
  else Resolved (result response).

(** The three statements that end a pending call, in the order
    [handleResponse] and the timeout handler run them: the timer is
    disarmed, the entry is deleted, the promise is settled. *)
Definition retire (t : Timer) (o : Settlement) (s : State) : State :=
  settle (t_promise t) o
    (set_pendingRequests (delete (t_requestId t) (pendingRequests s))
       (clearTimeout (timerId t) s)).

(** [sendRequest] past its first four statements: the promise is created,
    the identifier drawn, the timer armed and the entry stored. *)
Definition armed (uuidv4 : nat -> string) (s : State) : State :=
  set_pendingRequests
    (<[uuidv4 (uuids s) := {| promise := promises s; timeout := timerIds s |}]>
       (pendingRequests s))
    (setTimeout (uuidv4 (uuids s)) (promises s) (drew_uuid (new_promise s))).

(** The timer [sendRequest] arms in state [s]. *)
Definition timer_of (uuidv4 : nat -> string) (s : State) : Timer :=
  {| timerId := timerIds s; deadline := clock s + REQUEST_TIMEOUT_MS;
     t_requestId := uuidv4 (uuids s); t_promise := promises s |}.

(** The pending table, the armed timers and the settled promises fit
    together: pending entries and armed timers are in one-to-one
    correspondence, an armed timer belongs to a promise that is not settled
    yet, no promise was settled twice, and a promise that is not settled
    still has its timer. *)
Record consistent (uuidv4 : nat -> string) (s : State) : Prop := {
  pending_timer : forall rid pr,
    pendingRequests s !! rid = Some pr ->
    exists d, {| timerId := timeout pr; deadline := d;
                 t_requestId := rid; t_promise := promise pr |} ∈ timers s;
  timer_pending : forall t,
    t ∈ timers s ->
    pendingRequests s !! t_requestId t
    = Some {| promise := t_promise t; timeout := timerId t |};
  timer_ids : NoDup (timerId <$> timers s);
  timer_id_bound : forall t, t ∈ timers s -> timerId t < timerIds s;
  timer_promises : NoDup (t_promise <$> timers s);
  timer_promise_open : forall t,
    t ∈ timers s ->
    t_promise t < promises s /\ t_promise t ∉ (settled s).*1;
  settled_once : NoDup (settled s).*1;
  settled_bound : forall p, p ∈ (settled s).*1 -> p < promises s;
  all_accounted : forall p,
    p < promises s -> p ∈ (settled s).*1 \/ p ∈ t_promise <$> timers s;
  pending_issued : forall rid,
    is_Some (pendingRequests s !! rid) ->
    exists k, k < uuids s /\ rid = uuidv4 k;
}.

(** Events that register a connection, and events that close one. *)
Definition is_connection (e : Event) : bool :=
  match e with Connection _ => true | _ => false end.

Definition is_close (e : Event) : bool :=
  match e with Close _ => true | _ => false end.

(** The close event of the connection registered under [k]. *)
Definition closes (k : string) (e : Event) : bool :=
  match e with Close c => String.eqb c k | _ => false end.

(** Every tracked connection is registered under an identifier that
    [uuidv4] returned. *)
Definition keys_issued (uuidv4 : nat -> string) (s : State) : Prop :=
  forall k, In k (map_keys (connections s)) -> exists n, k = uuidv4 n.

(** Why promise [q] is settled with [o] while event [e] is handled in state
    [s]: a call that fails on the spot, a response that matches a pending
    entry, or a deadline that is reached. *)
Definition caused (e : Event) (s : State) (q : nat) (o : Settlement) : Prop :=
  (exists a p, e = Call a p /\ q = promises s
     /\ (o = Rejected NO_PLUGIN_MESSAGE \/ o = Rejected NOT_READY_MESSAGE))
  \/ (exists r pr, e = Message (Some r)
        /\ pendingRequests s !! id r = Some pr
        /\ q = promise pr /\ o = outcome_of r)
  \/ (exists dt t, e = Elapse dt /\ t ∈ timers s
        /\ (deadline t <= clock s + Z.of_N dt)%Z
        /\ q = t_promise t /\ o = Rejected TIMEOUT_MESSAGE).

(** Between two events no armed timer is overdue, and none is due later
    than the request timeout from now. *)
Definition timely (s : State) : Prop :=
  forall t, t ∈ timers s ->
    (clock s < deadline t <= clock s + REQUEST_TIMEOUT_MS)%Z.

(** Unfolds the field updates, so that every projection of an updated state
    is a projection of the state it started from. *)
Ltac state_simpl :=
  repeat (progress (cbn [connections pendingRequests activeConnectionId timers
                         clock uuids promises timerIds settled console
                         set_connections set_pendingRequests
                         set_activeConnectionId set_timers set_clock drew_uuid
                         new_promise settle print setTimeout clearTimeout
                         fst snd negb] in *)).


(** The active connection is the first key of the connections map, that is,
    the earliest registered of the tracked connections. *)
Definition active_is_earliest (s : State) : Prop :=
  activeConnectionId s = head (map_keys (connections s)).

(** ** Examples

    A generator that never repeats, for the examples: its [n]-th identifier
    is [id] followed by [n] in decimal. *)
Definition uuid_of (n : nat) : string := "id" +:+ pretty n.

(** A socket as the server hands it to [addConnection]: open, nothing sent. *)
Definition fresh_socket : WebSocket := {| readyState := OPEN; sent := [] |}.

(** One plugin connected, one call in flight, and then the plugin's socket
    starts to close. *)
Definition closing_trace : list Event :=
  [Connection fresh_socket; Call "search" []; SocketState (uuid_of 0) CLOSING].

(** One plugin connected. *)
Definition connected_trace : list Event := [Connection fresh_socket].

(** The answer to the first call made after [connected_trace]. *)
Definition first_answer : BridgeResponse :=
  {| id := uuid_of 1; result := Some (JString "ok"); error := None |}.

(** Two plugins connected, the second one closing. *)
Definition second_closing_trace : list Event :=
  [Connection fresh_socket; Connection fresh_socket;
   SocketState (uuid_of 1) CLOSING].

(** * Properties *)

(** ** The [Map] operations *)

Section JsMapFacts.
Context {V : Type}.
Implicit Types (m : list (string * V)) (k : string) (v : V).

Lemma map_has_keys k m : map_has k m = true <-> In k (map_keys m).
Proof.
  unfold map_has, map_keys.
  induction m as [|[k' v'] m IH]; simpl; [intuition discriminate|].
  destruct (String.eqb_spec k' k) as [->|Hne]; [tauto|].
  rewrite IH. intuition congruence.
Qed.

Lemma map_get_keys k m : is_Some (map_get k m) <-> In k (map_keys m).
Proof.
  rewrite <- map_has_keys. unfold map_has.
  destruct (map_get k m); split; intros H; try done; eauto.
Qed.

Lemma map_keys_set k v m :
  map_keys (map_set k v m) =
  if map_has k m then map_keys m else map_keys m ++ [k].
Proof.
  unfold map_has, map_keys.
  induction m as [|[k' v'] m IH]; simpl; [done|].
  destruct (String.eqb_spec k' k) as [->|Hne]; simpl; [done|].
  rewrite IH. by destruct (map_get k m).
Qed.

Lemma map_keys_set_In k k' v m :
  In k' (map_keys (map_set k v m)) <-> k' = k \/ In k' (map_keys m).
Proof.
  rewrite map_keys_set. destruct (map_has k m) eqn:E.
  - apply map_has_keys in E. intuition congruence.
  - rewrite in_app_iff. simpl. intuition congruence.
Qed.

Lemma map_keys_delete k m :
  map_keys (map_delete k m) = filter (fun k' => k' <> k) (map_keys m).
Proof.
  unfold map_keys.
  induction m as [|[k' v'] m IH]; simpl; [done|].
  destruct (String.eqb_spec k' k) as [->|Hne].
  - rewrite filter_cons_False by tauto. done.
  - rewrite filter_cons_True by done. simpl. by rewrite IH.
Qed.

Lemma map_keys_delete_In k k' m :
  In k' (map_keys (map_delete k m)) <-> k' <> k /\ In k' (map_keys m).
Proof.
  rewrite map_keys_delete, <- !list_elem_of_In, list_elem_of_filter. tauto.
Qed.

Lemma map_get_set_eq k v m : map_get k (map_set k v m) = Some v.
Proof.
  induction m as [|[k' v'] m IH]; simpl.
  - by rewrite String.eqb_refl.
  - destruct (String.eqb_spec k' k) as [->|Hne]; simpl.
    + by rewrite String.eqb_refl.
    + destruct (String.eqb_spec k' k); [done|]. apply IH.
Qed.

Lemma map_get_set_ne k k' v m :
  k' <> k -> map_get k' (map_set k v m) = map_get k' m.
Proof.
  intros Hne. induction m as [|[k0 v0] m IH]; simpl.
  - destruct (String.eqb_spec k k'); [congruence|done].
  - destruct (String.eqb_spec k0 k) as [->|Hne0]; simpl.
    + destruct (String.eqb_spec k k'); [congruence|done].
    + destruct (String.eqb_spec k0 k'); [done|]. apply IH.
Qed.

Lemma map_keys_fmap (f : string -> V -> V) m :
  map_keys (map (fun '(k, w) => (k, f k w)) m) = map_keys m.
Proof.
  unfold map_keys. induction m as [|[k' v'] m IH]; simpl; [done|].
  by rewrite IH.
Qed.
End JsMapFacts.

(** ** Runs *)

Section Runs.
Variable uuidv4 : nat -> string.

Lemma run_app tr1 tr2 s :
  run uuidv4 (tr1 ++ tr2) s = run uuidv4 tr2 (run uuidv4 tr1 s).
Proof. unfold run. apply fold_left_app. Qed.

Lemma run_snoc tr e s :
  run uuidv4 (tr ++ [e]) s = step uuidv4 e (run uuidv4 tr s).
Proof. by rewrite run_app. Qed.

(** An invariant of the initial state that every handler keeps holds in
    every reachable state. *)
Lemma reachable_ind (P : State -> Prop) :
  P initial ->
  (forall e s, reachable uuidv4 s -> P s -> P (step uuidv4 e s)) ->
  forall s, reachable uuidv4 s -> P s.
Proof.
  intros H0 Hstep s [tr ->].
  induction tr as [|e tr IH] using rev_ind; [done|].
  rewrite run_snoc. apply Hstep; [by exists tr | done].
Qed.

Lemma reachable_initial : reachable uuidv4 initial.
Proof. by exists []. Qed.

Lemma reachable_step e s :
  reachable uuidv4 s -> reachable uuidv4 (step uuidv4 e s).
Proof. intros [tr ->]. exists (tr ++ [e]). by rewrite run_snoc. Qed.

Lemma reachable_run tr s :
  reachable uuidv4 s -> reachable uuidv4 (run uuidv4 tr s).
Proof. intros [tr0 ->]. exists (tr0 ++ tr). by rewrite run_app. Qed.
End Runs.

(** ** What each handler leaves alone *)

Section Frames.
Variable uuidv4 : nat -> string.

Lemma handleResponse_connections r s :
  connections (handleResponse r s) = connections s
  /\ activeConnectionId (handleResponse r s) = activeConnectionId s.
Proof.
  unfold handleResponse. destruct (pendingRequests s !! id r); [|done].
  by destruct (truthy (error r)).
Qed.

Lemma on_message_connections d s :
  connections (on_message d s) = connections s
  /\ activeConnectionId (on_message d s) = activeConnectionId s.
Proof. destruct d; [apply handleResponse_connections | done]. Qed.

Lemma fire_connections due s :
  connections (fire due s) = connections s
  /\ activeConnectionId (fire due s) = activeConnectionId s.
Proof.
  revert s. induction due as [|t due IH]; intros s; simpl; [done|].
  destruct (IH (on_timeout t s)) as [-> ->]. done.
Qed.

Lemma elapse_connections dt s :
  connections (elapse dt s) = connections s
  /\ activeConnectionId (elapse dt s) = activeConnectionId s.
Proof.
  unfold elapse.
  destruct (fire_connections
              (filter (fun t => (deadline t <= clock s + Z.of_N dt)%Z) (timers s))
              (set_clock (clock s + Z.of_N dt) s)) as [H1 H2].
  simpl in *. by rewrite H1, H2.
Qed.

Lemma sendRequest_active a p s :
  activeConnectionId (sendRequest uuidv4 a p s) = activeConnectionId s.
Proof.
  unfold sendRequest, hasActiveConnection. state_simpl.
  destruct (activeConnectionId s) as [k|] eqn:Ha; state_simpl; [|done].
  destruct (map_has k (connections s)); state_simpl; [|done].
  destruct (map_get k (connections s)) as [ws|]; state_simpl; [|done].
  by destruct (is_OPEN ws).
Qed.

Lemma sendRequest_keys a p s :
  map_keys (connections (sendRequest uuidv4 a p s)) = map_keys (connections s).
Proof.
  unfold sendRequest, hasActiveConnection. state_simpl.
  destruct (activeConnectionId s) as [k|] eqn:Ha; state_simpl; [|done].
  destruct (map_has k (connections s)) eqn:Hk; state_simpl; [|done].
  destruct (map_get k (connections s)) as [ws|]; state_simpl; [|done].
  destruct (is_OPEN ws); state_simpl; [|done].
  by rewrite map_keys_set, Hk.
Qed.

Lemma pingAll_keys s :
  map_keys (connections (pingAll s)) = map_keys (connections s)
  /\ activeConnectionId (pingAll s) = activeConnectionId s.
Proof.
  split; [|done]. unfold pingAll. simpl.
  apply (map_keys_fmap (fun _ ws => if is_OPEN ws then ws_send FPing ws else ws)).
Qed.

Lemma on_readyState_keys c r s :
  map_keys (connections (on_readyState c r s)) = map_keys (connections s)
  /\ activeConnectionId (on_readyState c r s) = activeConnectionId s.
Proof.
  unfold on_readyState.
  destruct (map_get c (connections s)) as [ws|] eqn:E; [|done].
  split; [|done]. simpl. rewrite map_keys_set. unfold map_has. by rewrite E.
Qed.
End Frames.

(** ** The active connection is a tracked connection *)

Section ActiveTracked.
Variable uuidv4 : nat -> string.

Lemma addConnection_active_tracked ws s :
  active_tracked s -> active_tracked (snd (addConnection uuidv4 ws s)).
Proof.
  unfold active_tracked, addConnection. state_simpl. intros H.
  destruct (falsy (activeConnectionId s)); state_simpl.
  - rewrite !map_keys_set_In. by left.
  - destruct (activeConnectionId s) as [a|]; [|done].
    rewrite !map_keys_set_In. by do 2 right.
Qed.

Lemma on_close_active_tracked c s :
  active_tracked s -> active_tracked (on_close c s).
Proof.
  unfold active_tracked, on_close. state_simpl. intros H.
  destruct (activeConnectionId s) as [a|] eqn:Ha; state_simpl;
    rewrite ?Ha; [|done].
  destruct (String.eqb_spec a c) as [->|Hne]; state_simpl; rewrite ?Ha.
  - destruct (map_keys (map_delete c (connections s))); simpl; auto.
  - apply map_keys_delete_In. done.
Qed.

Lemma step_active_tracked e s :
  active_tracked s -> active_tracked (step uuidv4 e s).
Proof.
  intros H. destruct e as [ws|c|d|a p| |dt|c r]; simpl.
  - by apply addConnection_active_tracked.
  - by apply on_close_active_tracked.
  - unfold active_tracked. by destruct (on_message_connections d s) as [-> ->].
  - unfold active_tracked. by rewrite sendRequest_active, sendRequest_keys.
  - unfold active_tracked. by destruct (pingAll_keys s) as [-> ->].
  - unfold active_tracked. by destruct (elapse_connections dt s) as [-> ->].
  - unfold active_tracked. by destruct (on_readyState_keys c r s) as [-> ->].
Qed.

Lemma reachable_active_tracked s :
  reachable uuidv4 s -> active_tracked s.
Proof.
  apply reachable_ind; [done|]. intros e s' _. apply step_active_tracked.
Qed.
End ActiveTracked.

(** ** Filtered lists *)

Section FilterFacts.
Context {A : Type}.

Lemma filter_iff_on (P1 P2 : A -> Prop)
    `{!forall x, Decision (P1 x), !forall x, Decision (P2 x)} (l : list A) :
  (forall x, x ∈ l -> P1 x <-> P2 x) -> filter P1 l = filter P2 l.
Proof.
  induction l as [|a l IH]; intros Hiff; [done|].
  assert (P1 a <-> P2 a) as Ha by (apply Hiff, elem_of_cons; by left).
  rewrite !filter_cons, IH by (intros x Hx; apply Hiff, elem_of_cons; by right).
  destruct (decide (P1 a)), (decide (P2 a)); tauto.
Qed.

Lemma filter_all (P : A -> Prop) `{!forall x, Decision (P x)} (l : list A) :
  (forall x, x ∈ l -> P x) -> filter P l = l.
Proof.
  induction l as [|a l IH]; intros Hall; [done|].
  rewrite filter_cons_True by (apply Hall, elem_of_cons; by left).
  by rewrite IH by (intros x Hx; apply Hall, elem_of_cons; by right).
Qed.
End FilterFacts.

(** ** Lists without duplicates *)

Section NoDupFacts.
Context {A B : Type} (f : A -> B).

Lemma NoDup_fmap_eq (l : list A) x y :
  NoDup (f <$> l) -> x ∈ l -> y ∈ l -> f x = f y -> x = y.
Proof.
  induction l as [|a l IH]; simpl; intros Hnd Hx Hy Hf.
  - by apply elem_of_nil in Hx.
  - apply NoDup_cons in Hnd as [Hna Hnd].
    apply elem_of_cons in Hx as [->|Hx]; apply elem_of_cons in Hy as [->|Hy];
      try done.
    + exfalso. apply Hna. rewrite Hf. by apply list_elem_of_fmap_2.
    + exfalso. apply Hna. rewrite <- Hf. by apply list_elem_of_fmap_2.
    + by apply IH.
Qed.

Lemma NoDup_fmap_filter (P : A -> Prop) `{!forall x, Decision (P x)} (l : list A) :
  NoDup (f <$> l) -> NoDup (f <$> filter P l).
Proof.
  induction l as [|a l IH]; simpl; intros Hnd; [done|].
  apply NoDup_cons in Hnd as [Hna Hnd].
  rewrite filter_cons. destruct (decide (P a)); [|by apply IH].
  simpl. apply NoDup_cons. split; [|by apply IH].
  intros Hin. apply Hna.
  apply list_elem_of_fmap in Hin as (x & Hx & Hin).
  apply list_elem_of_filter in Hin as [_ Hin].
  rewrite Hx. by apply list_elem_of_fmap_2.
Qed.
End NoDupFacts.

(** ** The two ways a call is answered *)

Section Handlers.
Variable uuidv4 : nat -> string.

Lemma on_timeout_retire t s :
  on_timeout t s = retire t (Rejected TIMEOUT_MESSAGE) s.
Proof. done. Qed.

Lemma handleResponse_unknown r s :
  pendingRequests s !! id r = None ->
  handleResponse r s
  = print WARN ("[plugin] received response for unknown request: " +:+ id r) s.
Proof. intros H. unfold handleResponse. by rewrite H. Qed.

Lemma handleResponse_found r s pr d :
  pendingRequests s !! id r = Some pr ->
  handleResponse r s
  = print LOG ("[plugin] received response: " +:+ id r)
      (retire {| timerId := timeout pr; deadline := d;
                 t_requestId := id r; t_promise := promise pr |}
              (outcome_of r) s).
Proof.
  intros H. unfold handleResponse, outcome_of, retire. rewrite H.
  by destruct (truthy (error r)).
Qed.

Lemma writable_hasActiveConnection s :
  writable s = true -> hasActiveConnection s = true.
Proof.
  unfold writable, hasActiveConnection, map_has.
  destruct (activeConnectionId s) as [a|]; [|done].
  by destruct (map_get a (connections s)).
Qed.

Lemma sendRequest_no_connection a p s :
  hasActiveConnection s = false ->
  sendRequest uuidv4 a p s
  = settle (promises s) (Rejected NO_PLUGIN_MESSAGE) (new_promise s).
Proof.
  intros H. unfold sendRequest.
  change (hasActiveConnection (new_promise s)) with (hasActiveConnection s).
  by rewrite H.
Qed.

Lemma sendRequest_not_ready a p s :
  hasActiveConnection s = true -> writable s = false ->
  let requestId := uuidv4 (uuids s) in
  sendRequest uuidv4 a p s
  = settle (promises s) (Rejected NOT_READY_MESSAGE)
      (set_pendingRequests
         (delete requestId
            (<[requestId := {| promise := promises s; timeout := timerIds s |}]>
               (pendingRequests s)))
         (clearTimeout (timerIds s)
            (setTimeout requestId (promises s) (drew_uuid (new_promise s))))).
Proof.
  intros H Hw. unfold sendRequest.
  change (hasActiveConnection (new_promise s)) with (hasActiveConnection s).
  rewrite H. unfold writable in Hw. state_simpl.
  destruct (activeConnectionId s) as [k|]; [|done].
  destruct (map_get k (connections s)) as [ws|]; [|done].
  by rewrite Hw.
Qed.

Lemma sendRequest_sent a p s k ws :
  activeConnectionId s = Some k ->
  map_get k (connections s) = Some ws ->
  is_OPEN ws = true ->
  let requestId := uuidv4 (uuids s) in
  sendRequest uuidv4 a p s
  = print LOG ("[plugin] sent: " +:+ a +:+ " (" +:+ requestId +:+ ")")
      (set_connections
         (map_set k
            (ws_send (FRequest {| req_id := requestId; req_action := a;
                                  req_payload := p |}) ws)
            (connections s))
         (set_pendingRequests
            (<[requestId := {| promise := promises s; timeout := timerIds s |}]>
               (pendingRequests s))
            (setTimeout requestId (promises s) (drew_uuid (new_promise s))))).
Proof.
  intros Ha Hk Hopen. unfold sendRequest, hasActiveConnection, map_has.
  state_simpl. rewrite Ha. state_simpl. rewrite Hk. state_simpl.
  by rewrite Hopen.
Qed.
End Handlers.

(** ** The bookkeeping invariant *)

Section Consistency.
Variable uuidv4 : nat -> string.
Hypothesis uuidv4_inj : forall i j, uuidv4 i = uuidv4 j -> i = j.

Lemma consistent_initial : consistent uuidv4 initial.
Proof.
  constructor; simpl; try (intros; lia); try apply NoDup_nil_2;
    try (intros ? H; by apply elem_of_nil in H).
  - intros rid pr H. by rewrite lookup_empty in H.
  - intros rid [pr H]. by rewrite lookup_empty in H.
Qed.

Lemma consistent_print l msg s :
  consistent uuidv4 s -> consistent uuidv4 (print l msg s).
Proof. intros []. by constructor. Qed.

Lemma consistent_set_connections c s :
  consistent uuidv4 s -> consistent uuidv4 (set_connections c s).
Proof. intros []. by constructor. Qed.

Lemma consistent_set_activeConnectionId a s :
  consistent uuidv4 s -> consistent uuidv4 (set_activeConnectionId a s).
Proof. intros []. by constructor. Qed.

Lemma consistent_set_clock c s :
  consistent uuidv4 s -> consistent uuidv4 (set_clock c s).
Proof. intros []. by constructor. Qed.

Lemma consistent_drew_uuid s :
  consistent uuidv4 s -> consistent uuidv4 (drew_uuid s).
Proof.
  intros []. constructor; try done. simpl. intros rid H.
  destruct (pending_issued0 rid H) as (k & Hk & ->). exists k. split; [lia|done].
Qed.

(** The identifier [sendRequest] draws is not a key of the pending table. *)
Lemma consistent_fresh s :
  consistent uuidv4 s -> pendingRequests s !! uuidv4 (uuids s) = None.
Proof.
  intros Hc. destruct (pendingRequests s !! uuidv4 (uuids s)) eqn:E; [|done].
  destruct (pending_issued _ _ Hc (uuidv4 (uuids s))) as (k & Hk & Heq); [by eexists|].
  apply uuidv4_inj in Heq. lia.
Qed.

Lemma retire_consistent t o s :
  consistent uuidv4 s -> t ∈ timers s -> consistent uuidv4 (retire t o s).
Proof.
  intros Hc Ht. pose proof (timer_pending _ _ Hc t Ht) as Hpt.
  assert (Hother : forall t', t' ∈ timers s -> timerId t' <> timerId t ->
            t_requestId t' <> t_requestId t /\ t_promise t' <> t_promise t).
  { intros t' Ht' Hne. split; intros Heq.
    - pose proof (timer_pending _ _ Hc t' Ht') as Hpt'.
      rewrite Heq, Hpt in Hpt'. by injection Hpt'.
    - apply Hne. f_equal.
      by apply (NoDup_fmap_eq t_promise (timers s)); [apply Hc|..]. }
  unfold retire. constructor; state_simpl.
  - intros rid pr Hl. apply lookup_delete_Some in Hl as [Hne Hl].
    destruct (pending_timer _ _ Hc rid pr Hl) as [d Hd]. exists d.
    apply list_elem_of_filter. split; [|done]. simpl. intros Heq.
    apply Hne.
    assert ({| timerId := timeout pr; deadline := d; t_requestId := rid;
               t_promise := promise pr |} = t) as <-; [|done].
    by apply (NoDup_fmap_eq timerId (timers s)); [apply Hc|..].
  - intros t' Ht'. apply list_elem_of_filter in Ht' as [Hne Ht'].
    destruct (Hother t' Ht' Hne) as [Hr _].
    rewrite lookup_delete_ne by done. by apply Hc.
  - apply NoDup_fmap_filter, Hc.
  - intros t' Ht'. apply list_elem_of_filter in Ht' as [_ Ht']. by apply Hc.
  - apply NoDup_fmap_filter, Hc.
  - intros t' Ht'. apply list_elem_of_filter in Ht' as [Hne Ht'].
    destruct (timer_promise_open _ _ Hc t' Ht') as [Hlt Hns].
    split; [done|]. rewrite fmap_app. simpl. intros Hin.
    apply elem_of_app in Hin as [Hin|Hin]; [done|].
    apply list_elem_of_singleton in Hin.
    by destruct (Hother t' Ht' Hne) as [_ Hp].
  - rewrite fmap_app. apply NoDup_app. split; [apply Hc|]. split.
    + intros p Hp Hin. apply list_elem_of_singleton in Hin. subst p.
      by destruct (timer_promise_open _ _ Hc t Ht).
    + apply NoDup_singleton.
  - intros p Hp. rewrite fmap_app in Hp. apply elem_of_app in Hp as [Hp|Hp].
    + by apply Hc.
    + apply list_elem_of_singleton in Hp. subst p.
      by destruct (timer_promise_open _ _ Hc t Ht).
  - intros p Hp. rewrite fmap_app, elem_of_app.
    destruct (all_accounted _ _ Hc p Hp) as [Hin|Hin]; [by do 2 left|].
    apply list_elem_of_fmap in Hin as (t' & -> & Ht').
    destruct (decide (timerId t' = timerId t)) as [Heq|Hne].
    + left. right. simpl. apply list_elem_of_singleton. f_equal.
      by apply (NoDup_fmap_eq timerId (timers s)); [apply Hc|..].
    + right. apply list_elem_of_fmap_2. by apply list_elem_of_filter.
  - intros rid [pr Hl]. apply lookup_delete_Some in Hl as [_ Hl].
    apply Hc. by eexists.
Qed.
(** A call that fails before anything is stored. *)
Lemma immediate_consistent o s :
  consistent uuidv4 s ->
  consistent uuidv4 (settle (promises s) o (new_promise s)).
Proof.
  intros Hc. constructor; state_simpl; try apply Hc.
  - intros t Ht. destruct (timer_promise_open _ _ Hc t Ht) as [Hlt Hns].
    split; [lia|]. rewrite fmap_app, elem_of_app. intros [Hin|Hin]; [done|].
    apply list_elem_of_singleton in Hin. simpl in Hin. lia.
  - rewrite fmap_app. apply NoDup_app. split; [apply Hc|]. split.
    + intros q Hq Hin. apply list_elem_of_singleton in Hin. simpl in Hin.
      subst q. apply (settled_bound _ _ Hc) in Hq. lia.
    + apply NoDup_singleton.
  - intros q Hq. rewrite fmap_app, elem_of_app in Hq. destruct Hq as [Hq|Hq].
    + apply (settled_bound _ _ Hc) in Hq. lia.
    + apply list_elem_of_singleton in Hq. simpl in Hq. lia.
  - intros q Hq. rewrite fmap_app, elem_of_app.
    destruct (decide (q = promises s)) as [->|Hne].
    + left. right. by apply list_elem_of_singleton.
    + destruct (all_accounted _ _ Hc q) as [Hin|Hin]; [lia|by do 2 left|by right].
Qed.

(** A call that got as far as storing its entry. *)
Lemma armed_consistent s :
  consistent uuidv4 s -> consistent uuidv4 (armed uuidv4 s).
Proof.
  intros Hc. pose proof (consistent_fresh s Hc) as Hfresh.
  unfold armed. constructor; state_simpl.
  - intros rid pr Hl. apply lookup_insert_Some in Hl as [[<- <-]|[Hne Hl]].
    + exists (clock s + REQUEST_TIMEOUT_MS)%Z. apply elem_of_app. right.
      by apply list_elem_of_singleton.
    + destruct (pending_timer _ _ Hc rid pr Hl) as [d Hd]. exists d.
      apply elem_of_app. by left.
  - intros t Ht. apply elem_of_app in Ht as [Ht|Ht].
    + pose proof (timer_pending _ _ Hc t Ht) as Hpt.
      rewrite lookup_insert_ne; [done|]. intros Heq. by rewrite Heq, Hpt in Hfresh.
    + apply list_elem_of_singleton in Ht. subst t. simpl.
      by rewrite lookup_insert_eq.
  - rewrite fmap_app. apply NoDup_app. split; [apply Hc|]. split.
    + intros i Hi Hin. apply list_elem_of_singleton in Hin. subst i.
      apply list_elem_of_fmap in Hi as (t & Heq & Ht).
      apply (timer_id_bound _ _ Hc) in Ht. simpl in Heq. lia.
    + apply NoDup_singleton.
  - intros t Ht. apply elem_of_app in Ht as [Ht|Ht].
    + apply (timer_id_bound _ _ Hc) in Ht. lia.
    + apply list_elem_of_singleton in Ht. subst t. simpl. lia.
  - rewrite fmap_app. apply NoDup_app. split; [apply Hc|]. split.
    + intros q Hq Hin. apply list_elem_of_singleton in Hin. subst q.
      apply list_elem_of_fmap in Hq as (t & Heq & Ht).
      apply (timer_promise_open _ _ Hc) in Ht as [Hlt _]. simpl in Heq. lia.
    + apply NoDup_singleton.
  - intros t Ht. apply elem_of_app in Ht as [Ht|Ht].
    + apply (timer_promise_open _ _ Hc) in Ht as [Hlt Hns]. split; [lia|done].
    + apply list_elem_of_singleton in Ht. subst t. simpl. split; [lia|].
      intros Hin. apply (settled_bound _ _ Hc) in Hin. lia.
  - apply Hc.
  - intros q Hq. apply (settled_bound _ _ Hc) in Hq. lia.
  - intros q Hq. rewrite fmap_app, elem_of_app.
    destruct (decide (q = promises s)) as [->|Hne].
    + right. right. by apply list_elem_of_singleton.
    + destruct (all_accounted _ _ Hc q) as [Hin|Hin]; [lia|by left|by right; left].
  - intros rid [pr Hl]. apply lookup_insert_Some in Hl as [[<- <-]|[Hne Hl]].
    + exists (uuids s). split; [lia|done].
    + destruct (pending_issued _ _ Hc rid) as (k & Hk & ->); [by eexists|].
      exists k. split; [lia|done].
Qed.

Lemma timer_of_armed s : timer_of uuidv4 s ∈ timers (armed uuidv4 s).
Proof.
  unfold armed, timer_of. state_simpl. apply elem_of_app. right.
  by apply list_elem_of_singleton.
Qed.

(** [sendRequest], by cases, in terms of [armed] and [retire]. *)
Lemma sendRequest_cases a p s :
  (hasActiveConnection s = false
   /\ sendRequest uuidv4 a p s
      = settle (promises s) (Rejected NO_PLUGIN_MESSAGE) (new_promise s))
  \/ (hasActiveConnection s = true /\ writable s = false
      /\ sendRequest uuidv4 a p s
         = retire (timer_of uuidv4 s) (Rejected NOT_READY_MESSAGE) (armed uuidv4 s))
  \/ (exists k ws,
        activeConnectionId s = Some k /\ map_get k (connections s) = Some ws
        /\ is_OPEN ws = true
        /\ sendRequest uuidv4 a p s
           = print LOG ("[plugin] sent: " +:+ a +:+ " (" +:+ uuidv4 (uuids s) +:+ ")")
               (set_connections
                  (map_set k
                     (ws_send (FRequest {| req_id := uuidv4 (uuids s);
                                           req_action := a;
                                           req_payload := p |}) ws)
                     (connections s))
                  (armed uuidv4 s))).
Proof.
  destruct (hasActiveConnection s) eqn:Hh.
  - destruct (writable s) eqn:Hw.
    + right. right. unfold writable in Hw.
      destruct (activeConnectionId s) as [k|] eqn:Ha; [|done].
      destruct (map_get k (connections s)) as [ws|] eqn:Hk; [|done].
      exists k, ws. repeat split; try done.
      by apply sendRequest_sent.
    + right. left. repeat split; try done.
      by rewrite sendRequest_not_ready.
  - left. split; [done|]. by apply sendRequest_no_connection.
Qed.

Lemma sendRequest_consistent a p s :
  consistent uuidv4 s -> consistent uuidv4 (sendRequest uuidv4 a p s).
Proof.
  intros Hc.
  destruct (sendRequest_cases a p s)
    as [[_ ->]|[(_ & _ & ->)|(k & ws & _ & _ & _ & ->)]].
  - by apply immediate_consistent.
  - apply retire_consistent; [by apply armed_consistent|apply timer_of_armed].
  - by apply consistent_print, consistent_set_connections, armed_consistent.
Qed.

Lemma handleResponse_consistent r s :
  consistent uuidv4 s -> consistent uuidv4 (handleResponse r s).
Proof.
  intros Hc. destruct (pendingRequests s !! id r) as [pr|] eqn:E.
  - destruct (pending_timer _ _ Hc _ _ E) as [d Hd].
    rewrite (handleResponse_found r s pr d E).
    by apply consistent_print, retire_consistent.
  - rewrite handleResponse_unknown by done. by apply consistent_print.
Qed.
End Consistency.

(** ** Timers that fire *)

Section Firing.
Variable uuidv4 : nat -> string.

Lemma fire_timers due s :
  timers (fire due s)
  = filter (fun t => timerId t ∉ timerId <$> due) (timers s).
Proof.
  revert s. induction due as [|t0 due IH]; intros s; simpl.
  - symmetry. apply filter_all. intros t _ Hin. by apply elem_of_nil in Hin.
  - rewrite IH. unfold on_timeout. state_simpl.
    rewrite list_filter_filter. apply list_filter_iff. intros t.
    rewrite elem_of_cons. tauto.
Qed.

Lemma fire_settled due s :
  settled (fire due s)
  = settled s ++ ((fun t => (t_promise t, Rejected TIMEOUT_MESSAGE)) <$> due).
Proof.
  revert s. induction due as [|t0 due IH]; intros s; simpl.
  - by rewrite app_nil_r.
  - rewrite IH. unfold on_timeout. state_simpl. by rewrite <- app_assoc.
Qed.

Lemma fire_pendingRequests due s rid :
  pendingRequests (fire due s) !! rid
  = if decide (rid ∈ t_requestId <$> due) then None
    else pendingRequests s !! rid.
Proof.
  revert s. induction due as [|t0 due IH]; intros s; cbn [fire].
  - rewrite decide_False; [done|]. intros Hin. by apply elem_of_nil in Hin.
  - rewrite IH, fmap_cons. unfold on_timeout. state_simpl.
    destruct (decide (rid ∈ t_requestId <$> due)) as [Hin|Hnin].
    + rewrite decide_True; [done|]. by apply elem_of_cons; right.
    + destruct (decide (rid = t_requestId t0)) as [->|Hne].
      * rewrite decide_True by (apply elem_of_cons; by left).
        apply lookup_delete_eq.
      * rewrite decide_False.
        -- by apply lookup_delete_ne.
        -- rewrite elem_of_cons. tauto.
Qed.

Lemma fire_counters due s :
  clock (fire due s) = clock s /\ uuids (fire due s) = uuids s
  /\ promises (fire due s) = promises s /\ timerIds (fire due s) = timerIds s.
Proof.
  revert s. induction due as [|t0 due IH]; intros s; simpl; [done|].
  destruct (IH (on_timeout t0 s)) as (-> & -> & -> & ->). done.
Qed.

Lemma fire_consistent due s :
  NoDup (timerId <$> due) -> (forall t, t ∈ due -> t ∈ timers s) ->
  consistent uuidv4 s -> consistent uuidv4 (fire due s).
Proof.
  revert s. induction due as [|t0 due IH]; intros s Hnd Hsub Hc; simpl; [done|].
  simpl in Hnd. apply NoDup_cons in Hnd as [Hn0 Hnd].
  apply IH; [done| |].
  - intros t Ht. unfold on_timeout. state_simpl.
    apply list_elem_of_filter. split.
    + intros Heq. apply Hn0. rewrite <- Heq. by apply list_elem_of_fmap_2.
    + apply Hsub. by apply elem_of_cons; right.
  - rewrite on_timeout_retire. apply retire_consistent; [done|].
    apply Hsub. by apply elem_of_cons; left.
Qed.

Lemma elapse_consistent dt s :
  consistent uuidv4 s -> consistent uuidv4 (elapse dt s).
Proof.
  intros Hc. unfold elapse. apply fire_consistent.
  - apply NoDup_fmap_filter. state_simpl. apply Hc.
  - intros t Ht. by apply list_elem_of_filter in Ht as [_ Ht].
  - by apply consistent_set_clock.
Qed.

(** After [elapse], the timers still armed are those not yet due. *)
Lemma elapse_timers dt s :
  NoDup (timerId <$> timers s) ->
  timers (elapse dt s)
  = filter (fun t => (clock s + Z.of_N dt < deadline t)%Z) (timers s).
Proof.
  intros Hnd. unfold elapse. rewrite fire_timers. state_simpl.
  apply filter_iff_on. intros t Ht. split.
  - intros Hnin. destruct (decide (clock s + Z.of_N dt < deadline t)%Z); [done|].
    exfalso. apply Hnin. apply list_elem_of_fmap_2.
    apply list_elem_of_filter. split; [lia|done].
  - intros Hlt Hin. apply list_elem_of_fmap in Hin as (t' & Heq & Ht').
    apply list_elem_of_filter in Ht' as [Hle Ht'].
    assert (t = t') as <- by (by apply (NoDup_fmap_eq timerId (timers s))).
    lia.
Qed.

Lemma elapse_clock dt s : clock (elapse dt s) = (clock s + Z.of_N dt)%Z.
Proof.
  unfold elapse.
  match goal with |- clock (fire ?due ?s') = _ =>
    destruct (fire_counters due s') as [-> _] end.
  done.
Qed.
End Firing.

(** ** What one event does to timers, promises and counters *)

Section StepEffects.
Variable uuidv4 : nat -> string.

Lemma addConnection_bookkeeping ws s :
  let s' := snd (addConnection uuidv4 ws s) in
  pendingRequests s' = pendingRequests s /\ timers s' = timers s
  /\ settled s' = settled s /\ clock s' = clock s
  /\ promises s' = promises s /\ timerIds s' = timerIds s
  /\ uuids s' = S (uuids s).
Proof.
  unfold addConnection. state_simpl.
  by destruct (falsy (activeConnectionId s)).
Qed.

Lemma on_close_bookkeeping c s :
  let s' := on_close c s in
  pendingRequests s' = pendingRequests s /\ timers s' = timers s
  /\ settled s' = settled s /\ clock s' = clock s
  /\ promises s' = promises s /\ timerIds s' = timerIds s
  /\ uuids s' = uuids s.
Proof.
  unfold on_close. state_simpl.
  destruct (activeConnectionId s) as [a|]; [|done].
  by destruct (String.eqb a c).
Qed.

Lemma on_readyState_bookkeeping c r s :
  let s' := on_readyState c r s in
  pendingRequests s' = pendingRequests s /\ timers s' = timers s
  /\ settled s' = settled s /\ clock s' = clock s
  /\ promises s' = promises s /\ timerIds s' = timerIds s
  /\ uuids s' = uuids s.
Proof.
  unfold on_readyState. by destruct (map_get c (connections s)).
Qed.

Lemma step_timers e s t :
  t ∈ timers (step uuidv4 e s) ->
  t ∈ timers s
  \/ (t = timer_of uuidv4 s /\ exists a p, e = Call a p /\ writable s = true).
Proof.
  destruct e as [ws|c|d|a p| |dt|c r]; cbn [step].
  - destruct (addConnection_bookkeeping ws s) as (_ & -> & _). by left.
  - destruct (on_close_bookkeeping c s) as (_ & -> & _). by left.
  - destruct d as [r|]; cbn [on_message]; [|by left]. unfold handleResponse.
    destruct (pendingRequests s !! id r) as [pr|]; [|by left].
    destruct (truthy (error r)); state_simpl;
      intros Ht; apply list_elem_of_filter in Ht as [_ Ht]; by left.
  - destruct (sendRequest_cases uuidv4 a p s)
      as [[_ ->]|[(_ & _ & ->)|(k & ws & Ha & Hk & Hopen & ->)]].
    + by left.
    + unfold retire, armed, timer_of. state_simpl. intros Ht.
      apply list_elem_of_filter in Ht as [Hne Ht].
      apply elem_of_app in Ht as [Ht|Ht]; [by left|].
      apply list_elem_of_singleton in Ht. by subst t.
    + unfold armed. state_simpl. intros Ht.
      apply elem_of_app in Ht as [Ht|Ht]; [by left|].
      apply list_elem_of_singleton in Ht. right. split; [done|].
      exists a, p. split; [done|]. unfold writable. by rewrite Ha, Hk.
  - by left.
  - unfold elapse. rewrite fire_timers. intros Ht.
    apply list_elem_of_filter in Ht as [_ Ht]. by left.
  - destruct (on_readyState_bookkeeping c r s) as (_ & -> & _). by left.
Qed.

Lemma step_counters e s :
  (clock s <= clock (step uuidv4 e s))%Z
  /\ uuids s <= uuids (step uuidv4 e s)
  /\ promises s <= promises (step uuidv4 e s)
  /\ timerIds s <= timerIds (step uuidv4 e s).
Proof.
  destruct e as [ws|c|d|a p| |dt|c r]; cbn [step].
  - destruct (addConnection_bookkeeping ws s) as (_ & _ & _ & -> & -> & -> & ->). lia.
  - destruct (on_close_bookkeeping c s) as (_ & _ & _ & -> & -> & -> & ->). lia.
  - destruct d as [r|]; cbn [on_message]; [|simpl; lia]. unfold handleResponse.
    destruct (pendingRequests s !! id r) as [pr|]; [|simpl; lia].
    destruct (truthy (error r)); state_simpl; lia.
  - destruct (sendRequest_cases uuidv4 a p s)
      as [[_ ->]|[(_ & _ & ->)|(k & ws & Ha & Hk & Hopen & ->)]];
      unfold retire, armed; state_simpl; lia.
  - simpl. lia.
  - unfold elapse.
    match goal with |- context [fire ?due ?s'] =>
      destruct (fire_counters due s') as (-> & -> & -> & ->) end.
    state_simpl. lia.
  - destruct (on_readyState_bookkeeping c r s) as (_ & _ & _ & -> & -> & -> & ->). lia.
Qed.

(** The clock moves only when time passes. *)
Lemma step_clock e s :
  clock (step uuidv4 e s)
  = (clock s + match e with Elapse dt => Z.of_N dt | _ => 0 end)%Z.
Proof.
  destruct e as [ws|c|d|a p| |dt|c r]; cbn [step].
  - destruct (addConnection_bookkeeping ws s) as (_ & _ & _ & -> & _). lia.
  - destruct (on_close_bookkeeping c s) as (_ & _ & _ & -> & _). lia.
  - destruct d as [r|]; cbn [on_message]; [|simpl; lia]. unfold handleResponse.
    destruct (pendingRequests s !! id r) as [pr|]; [|simpl; lia].
    destruct (truthy (error r)); state_simpl; lia.
  - destruct (sendRequest_cases uuidv4 a p s)
      as [[_ ->]|[(_ & _ & ->)|(k & ws & Ha & Hk & Hopen & ->)]];
      unfold retire, armed; state_simpl; lia.
  - simpl. lia.
  - apply elapse_clock.
  - destruct (on_readyState_bookkeeping c r s) as (_ & _ & _ & -> & _). lia.
Qed.

(** Every call of [resolve] or [reject] during one event, with its cause. *)
Lemma step_settled e s :
  exists new,
    settled (step uuidv4 e s) = settled s ++ new
    /\ forall q o, (q, o) ∈ new -> caused e s q o.
Proof.
  assert (forall s', settled s' = settled s ->
            exists new, settled s' = settled s ++ new /\
              forall q o, (q, o) ∈ new -> caused e s q o) as Hnil.
  { intros s' ->. exists []. split; [by rewrite app_nil_r|].
    intros q o Hin. by apply elem_of_nil in Hin. }
  unfold caused.
  destruct e as [ws|c|d|a p| |dt|c r]; cbn [step].
  - apply Hnil. by destruct (addConnection_bookkeeping ws s) as (_ & _ & -> & _).
  - apply Hnil. by destruct (on_close_bookkeeping c s) as (_ & _ & -> & _).
  - destruct d as [r|]; cbn [on_message]; [|by apply Hnil].
    destruct (pendingRequests s !! id r) as [pr|] eqn:E.
    + rewrite (handleResponse_found r s pr 0 E). unfold retire. state_simpl.
      eexists. split; [done|]. intros q o Hin.
      apply list_elem_of_singleton in Hin. injection Hin as -> ->.
      right. left. by exists r, pr.
    + rewrite handleResponse_unknown by done. by apply Hnil.
  - destruct (sendRequest_cases uuidv4 a p s)
      as [[_ ->]|[(_ & _ & ->)|(k & ws & Ha & Hk & Hopen & ->)]].
    + state_simpl. eexists. split; [done|]. intros q o Hin.
      apply list_elem_of_singleton in Hin. injection Hin as -> ->.
      left. exists a, p. auto.
    + unfold retire, armed, timer_of. state_simpl.
      eexists. split; [done|]. intros q o Hin.
      apply list_elem_of_singleton in Hin. injection Hin as -> ->.
      left. exists a, p. auto.
    + by apply Hnil.
  - by apply Hnil.
  - unfold elapse. rewrite fire_settled. state_simpl.
    eexists. split; [done|]. intros q o Hin.
    apply list_elem_of_fmap in Hin as (t & Heq & Ht). injection Heq as -> ->.
    apply list_elem_of_filter in Ht as [Hle Ht].
    right. right. by exists dt, t.
  - apply Hnil. by destruct (on_readyState_bookkeeping c r s) as (_ & _ & -> & _).
Qed.
End StepEffects.

(** ** Invariants of reachable states *)

Section Reachable.
Variable uuidv4 : nat -> string.
Hypothesis uuidv4_inj : forall i j, uuidv4 i = uuidv4 j -> i = j.

Lemma step_consistent e s :
  consistent uuidv4 s -> consistent uuidv4 (step uuidv4 e s).
Proof.
  intros Hc. destruct e as [ws|c|d|a p| |dt|c r]; cbn [step].
  - unfold addConnection. cbn [snd].
    apply consistent_set_connections, consistent_print.
    destruct (falsy _).
    + by apply consistent_set_activeConnectionId, consistent_set_connections,
        consistent_drew_uuid.
    + by apply consistent_set_connections, consistent_drew_uuid.
  - unfold on_close. apply consistent_print.
    destruct (activeConnectionId _) as [a|]; [|by apply consistent_set_connections].
    destruct (String.eqb a c).
    + by apply consistent_set_activeConnectionId, consistent_set_connections.
    + by apply consistent_set_connections.
  - destruct d as [r|]; cbn [on_message].
    + by apply handleResponse_consistent.
    + by apply consistent_print.
  - by apply sendRequest_consistent.
  - by apply consistent_set_connections.
  - by apply elapse_consistent.
  - unfold on_readyState. destruct (map_get c (connections s)); [|done].
    by apply consistent_set_connections.
Qed.

Lemma reachable_consistent s : reachable uuidv4 s -> consistent uuidv4 s.
Proof.
  apply reachable_ind; [apply consistent_initial|].
  intros e s' _. apply step_consistent.
Qed.

Lemma step_timely e s :
  consistent uuidv4 s -> timely s -> timely (step uuidv4 e s).
Proof.
  intros Hc Ht t Hin. rewrite step_clock.
  destruct e as [ws|c|d|a p| |dt|c r];
    try (apply step_timers in Hin as [Hin|[-> _]];
         [apply Ht in Hin; lia | unfold timer_of, REQUEST_TIMEOUT_MS; simpl; lia]).
  cbn [step] in Hin. rewrite elapse_timers in Hin by apply Hc.
  apply list_elem_of_filter in Hin as [Hlt Hin]. apply Ht in Hin. lia.
Qed.

Lemma reachable_timely s : reachable uuidv4 s -> timely s.
Proof.
  intros Hr. revert s Hr. apply reachable_ind.
  - intros t Hin. by apply elem_of_nil in Hin.
  - intros e s Hr. apply step_timely. by apply reachable_consistent.
Qed.
End Reachable.

(** ** Following one call from dispatch to its outcome *)

Section Tracking.
Variable uuidv4 : nat -> string.
Hypothesis uuidv4_inj : forall i j, uuidv4 i = uuidv4 j -> i = j.

Lemma settled_unique s q o o' :
  NoDup (settled s).*1 -> (q, o) ∈ settled s -> (q, o') ∈ settled s -> o = o'.
Proof.
  intros Hnd H1 H2.
  assert ((q, o) = (q, o')) as Heq by (by apply (NoDup_fmap_eq fst (settled s))).
  by injection Heq.
Qed.

Lemma run_counters tr s :
  (clock s <= clock (run uuidv4 tr s))%Z
  /\ uuids s <= uuids (run uuidv4 tr s)
  /\ promises s <= promises (run uuidv4 tr s).
Proof.
  induction tr as [|e tr IH] using rev_ind; [simpl; lia|].
  rewrite run_snoc.
  pose proof (step_counters uuidv4 e (run uuidv4 tr s)). lia.
Qed.

Lemma run_settled tr s x :
  x ∈ settled s -> x ∈ settled (run uuidv4 tr s).
Proof.
  intros Hx. induction tr as [|e tr IH] using rev_ind; [done|].
  rewrite run_snoc.
  destruct (step_settled uuidv4 e (run uuidv4 tr s)) as (new & -> & _).
  apply elem_of_app. by left.
Qed.

(** An identifier that was drawn earlier and is no longer (or about to be
    no longer) a key of the pending table is not a key after the event. *)
Lemma step_lookup_None e s k :
  consistent uuidv4 s -> k < uuids s ->
  (forall pr, pendingRequests s !! uuidv4 k = Some pr ->
              promise pr ∈ (settled (step uuidv4 e s)).*1) ->
  pendingRequests (step uuidv4 e s) !! uuidv4 k = None.
Proof.
  intros Hc Hk Hgone.
  pose proof (step_consistent uuidv4 uuidv4_inj e s Hc) as Hc'.
  destruct (pendingRequests (step uuidv4 e s) !! uuidv4 k) as [pr'|] eqn:E; [|done].
  exfalso. destruct (pending_timer _ _ Hc' _ _ E) as [d Hd].
  destruct (timer_promise_open _ _ Hc' _ Hd) as [_ Hopen]. simpl in Hopen.
  apply step_timers in Hd as [Hd|[Heq _]].
  - pose proof (timer_pending _ _ Hc _ Hd) as Hp. simpl in Hp.
    by apply Hgone in Hp.
  - unfold timer_of in Heq. injection Heq as _ _ Heq _.
    apply uuidv4_inj in Heq. lia.
Qed.

Lemma call_tracked a p s tr :
  reachable uuidv4 s -> writable s = true ->
  let s' := run uuidv4 tr (sendRequest uuidv4 a p s) in
  (pendingRequests s' !! uuidv4 (uuids s)
     = Some {| promise := promises s; timeout := timerIds s |}
   /\ timer_of uuidv4 s ∈ timers s'
   /\ promises s ∉ (settled s').*1)
  \/ (pendingRequests s' !! uuidv4 (uuids s) = None
      /\ (promises s, Rejected TIMEOUT_MESSAGE) ∈ settled s'
      /\ (clock s + REQUEST_TIMEOUT_MS <= clock s')%Z)
  \/ (pendingRequests s' !! uuidv4 (uuids s) = None
      /\ exists r, Message (Some r) ∈ tr /\ id r = uuidv4 (uuids s)
                   /\ (promises s, outcome_of r) ∈ settled s').
Proof.
  intros Hr Hw. pose proof (reachable_consistent uuidv4 uuidv4_inj s Hr) as Hc.
  assert (Hsent : exists k ws,
    sendRequest uuidv4 a p s
    = print LOG ("[plugin] sent: " +:+ a +:+ " (" +:+ uuidv4 (uuids s) +:+ ")")
        (set_connections
           (map_set k (ws_send (FRequest {| req_id := uuidv4 (uuids s);
                                            req_action := a;
                                            req_payload := p |}) ws)
                    (connections s))
           (armed uuidv4 s))).
  { destruct (sendRequest_cases uuidv4 a p s)
      as [[Hh _]|[(_ & Hnw & _)|(k & ws & _ & _ & _ & Heq)]].
    - apply writable_hasActiveConnection in Hw. congruence.
    - congruence.
    - by exists k, ws. }
  destruct Hsent as (k0 & ws0 & Hsent).
  induction tr as [|e tr IH] using rev_ind; intros s'.
  - left. subst s'. cbn [run fold_left]. rewrite Hsent.
    unfold armed, timer_of. state_simpl. split; [by rewrite lookup_insert_eq|].
    split.
    + apply elem_of_app. right. by apply list_elem_of_singleton.
    + intros Hin. apply (settled_bound _ _ Hc) in Hin. lia.
  - subst s'. rewrite run_snoc.
    set (s1 := run uuidv4 tr (sendRequest uuidv4 a p s)) in *.
    assert (reachable uuidv4 s1) as Hr1
      by (apply reachable_run, (reachable_step uuidv4 (Call a p)), Hr).
    pose proof (reachable_consistent uuidv4 uuidv4_inj s1 Hr1) as Hc1.
    pose proof (step_consistent uuidv4 uuidv4_inj e s1 Hc1) as Hc2.
    assert (uuids s < uuids s1) as Hu.
    { pose proof (run_counters tr (sendRequest uuidv4 a p s)) as (_ & Hu & _).
      fold s1 in Hu. rewrite Hsent in Hu. unfold armed in Hu. state_simpl. lia. }
    destruct (step_settled uuidv4 e s1) as (new & Hnew & Hcause).
    destruct IH as [(Hp & Ht & Hopen)|[(Hp & Hs & Hlate)|(Hp & r & Hin & Hid & Hs)]].
    + destruct (decide (promises s ∈ new.*1)) as [Hq|Hq].
      * apply list_elem_of_fmap in Hq as ([q o] & Hq & Hqo). simpl in Hq. subst q.
        assert (pendingRequests (step uuidv4 e s1) !! uuidv4 (uuids s) = None) as Hnone.
        { apply step_lookup_None; [done|done|]. intros pr Hpr.
          rewrite Hp in Hpr. injection Hpr as <-. simpl. rewrite Hnew, fmap_app.
          apply elem_of_app. right.
          by apply (list_elem_of_fmap_2 fst new (promises s, o)). }
        assert ((promises s, o) ∈ settled (step uuidv4 e s1)) as Hin
          by (rewrite Hnew; apply elem_of_app; by right).
        destruct (Hcause _ _ Hqo)
          as [(a' & p' & _ & Heq & _)
             |[(r & pr & -> & Hpr & Heq & ->)|(dt & t & -> & Htin & Hdue & Heq & ->)]].
        -- destruct (timer_promise_open _ _ Hc1 _ Ht) as [Hlt _]. simpl in Hlt. lia.
        -- right. right. split; [done|]. exists r.
           split; [apply elem_of_app; right; by apply list_elem_of_singleton|].
           split; [|done].
           destruct (pending_timer _ _ Hc1 _ _ Hpr) as [d Hd].
           assert ({| timerId := timeout pr; deadline := d; t_requestId := id r;
                      t_promise := promise pr |} = timer_of uuidv4 s) as Heqt
             by (by apply (NoDup_fmap_eq t_promise (timers s1)); [apply Hc1|..]).
           unfold timer_of in Heqt. by injection Heqt.
        -- right. left. split; [done|]. split; [done|].
           assert (t = timer_of uuidv4 s) as ->
             by (by apply (NoDup_fmap_eq t_promise (timers s1)); [apply Hc1|..]).
           rewrite step_clock. simpl in Hdue. lia.
      * left.
        assert (promises s ∉ (settled (step uuidv4 e s1)).*1) as Hopen'.
        { rewrite Hnew, fmap_app, elem_of_app. tauto. }
        destruct (timer_promise_open _ _ Hc1 _ Ht) as [Hlt _]. simpl in Hlt.
        destruct (all_accounted _ _ Hc2 (promises s)) as [Hin|Hin]; [|done|].
        { pose proof (step_counters uuidv4 e s1). lia. }
        apply list_elem_of_fmap in Hin as (t & Heq & Hin).
        assert (t = timer_of uuidv4 s) as ->.
        { pose proof Hin as Hin'. apply step_timers in Hin' as [Hin'|[-> _]].
          - by apply (NoDup_fmap_eq t_promise (timers s1)); [apply Hc1|..].
          - unfold timer_of in Heq. simpl in Heq. lia. }
        split; [|done]. by apply (timer_pending _ _ Hc2) in Hin.
    + right. left. split; [|split].
      * apply step_lookup_None; [done|done|]. intros pr Hpr. congruence.
      * rewrite Hnew. apply elem_of_app. by left.
      * pose proof (step_counters uuidv4 e s1). lia.
    + right. right. split.
      * apply step_lookup_None; [done|done|]. intros pr Hpr. congruence.
      * exists r. split; [apply elem_of_app; by left|]. split; [done|].
        rewrite Hnew. apply elem_of_app. by left.
Qed.
End Tracking.

(** ** One response *)

Lemma handleResponse_effect (r : BridgeResponse) (s : State) (pr : PendingRequest) :
  pendingRequests s !! id r = Some pr ->
  settled (handleResponse r s) = settled s ++ [(promise pr, outcome_of r)]
  /\ pendingRequests (handleResponse r s) = delete (id r) (pendingRequests s).
Proof. intros H. by rewrite (handleResponse_found r s pr 0 H). Qed.

(** ** Which connection carries a call *)

Section ActiveConnection.
Variable uuidv4 : nat -> string.

(** Only connections and closes move [activeConnectionId] or change the
    set of tracked connections. *)
Lemma step_keeps_active e s :
  is_connection e = false -> is_close e = false ->
  activeConnectionId (step uuidv4 e s) = activeConnectionId s
  /\ map_keys (connections (step uuidv4 e s)) = map_keys (connections s).
Proof.
  intros Hc Hd. destruct e as [ws|c|d|a p| |dt|c r]; try done; cbn [step].
  - by destruct (on_message_connections d s) as [-> ->].
  - by rewrite sendRequest_active, sendRequest_keys.
  - by destruct (pingAll_keys s) as [-> ->].
  - by destruct (elapse_connections dt s) as [-> ->].
  - by destruct (on_readyState_keys c r s) as [-> ->].
Qed.

Lemma addConnection_connections ws s :
  connections (snd (addConnection uuidv4 ws s))
  = map_set (uuidv4 (uuids s)) (ws_send (FConnected (uuidv4 (uuids s))) ws)
      (map_set (uuidv4 (uuids s)) ws (connections s)).
Proof.
  unfold addConnection. state_simpl. by destruct (falsy (activeConnectionId s)).
Qed.

Lemma on_close_connections c s :
  connections (on_close c s) = map_delete c (connections s).
Proof.
  unfold on_close. state_simpl. destruct (activeConnectionId s) as [a|]; [|done].
  by destruct (String.eqb a c).
Qed.

Lemma step_keys_issued e s :
  keys_issued uuidv4 s -> keys_issued uuidv4 (step uuidv4 e s).
Proof.
  intros Hk k. destruct e as [ws|c|d|a p| |dt|c r]; cbn [step].
  - rewrite addConnection_connections, !map_keys_set_In.
    intros [->|[->|Hin]]; eauto.
  - rewrite on_close_connections. intros Hin.
    apply map_keys_delete_In in Hin as [_ Hin]. auto.
  - destruct (on_message_connections d s) as [-> _]. apply Hk.
  - rewrite sendRequest_keys. apply Hk.
  - destruct (pingAll_keys s) as [-> _]. apply Hk.
  - destruct (elapse_connections dt s) as [-> _]. apply Hk.
  - destruct (on_readyState_keys c r s) as [-> _]. apply Hk.
Qed.

Lemma reachable_keys_issued s : reachable uuidv4 s -> keys_issued uuidv4 s.
Proof.
  apply reachable_ind; [by intros k Hin|]. intros e s' _. apply step_keys_issued.
Qed.

(** A connection with a non-empty identifier stays the active one until it
    closes. *)
Lemma step_keeps_promoted e s k :
  k <> "" -> closes k e = false ->
  activeConnectionId s = Some k -> In k (map_keys (connections s)) ->
  activeConnectionId (step uuidv4 e s) = Some k
  /\ In k (map_keys (connections (step uuidv4 e s))).
Proof.
  intros Hne Hcl Ha Hin.
  destruct (is_connection e) eqn:Hc; [|destruct (is_close e) eqn:Hd].
  - destruct e as [ws| | | | | |]; try done. cbn [step].
    unfold addConnection. state_simpl. rewrite Ha. cbn [falsy].
    apply String.eqb_neq in Hne. rewrite Hne. state_simpl.
    split; [done|]. rewrite !map_keys_set_In. auto.
  - destruct e as [|c| | | | |]; try done. cbn [step closes] in *.
    unfold on_close. state_simpl. rewrite Ha. state_simpl.
    rewrite String.eqb_sym, Hcl. state_simpl. split; [done|].
    apply map_keys_delete_In. split; [|done].
    apply String.eqb_neq in Hcl. congruence.
  - destruct (step_keeps_active e s Hc Hd) as [-> ->]. done.
Qed.

Lemma run_keeps_promoted tr s k :
  k <> "" -> Forall (fun e => closes k e = false) tr ->
  activeConnectionId s = Some k -> In k (map_keys (connections s)) ->
  activeConnectionId (run uuidv4 tr s) = Some k
  /\ In k (map_keys (connections (run uuidv4 tr s))).
Proof.
  intros Hne Hall Ha Hin. induction tr as [|e tr IH] using rev_ind; [done|].
  apply Forall_app in Hall as [Hall He]. rewrite Forall_singleton in He.
  rewrite run_snoc. destruct (IH Hall) as [Ha' Hin'].
  by apply step_keeps_promoted.
Qed.

(** Without an active connection, only a new connection provides one. *)
Lemma run_keeps_inactive tr s :
  Forall (fun e => is_connection e = false) tr ->
  activeConnectionId s = None ->
  activeConnectionId (run uuidv4 tr s) = None.
Proof.
  induction tr as [|e tr IH] using rev_ind; intros Hall Hs; [done|].
  apply Forall_app in Hall as [Hall He]. rewrite Forall_singleton in He.
  rewrite run_snoc. specialize (IH Hall Hs).
  destruct (is_close e) eqn:Hcl.
  - destruct e; try done. cbn [step]. unfold on_close. state_simpl.
    by rewrite IH.
  - destruct (step_keeps_active e (run uuidv4 tr s) He Hcl) as [-> _]. done.
Qed.

Lemma addConnection_hasActiveConnection ws s :
  activeConnectionId s = None ->
  hasActiveConnection (snd (addConnection uuidv4 ws s)) = true.
Proof.
  intros Hs. unfold addConnection, hasActiveConnection. state_simpl.
  rewrite Hs. cbn [falsy]. state_simpl. unfold map_has.
  by rewrite map_get_set_eq.
Qed.
End ActiveConnection.

(** * The reconnecting client's backoff *)

Section Backoff.
Import Client.
Variable cfg : Config.
Hypothesis delays_ordered :
  (0 <= initialReconnectDelay cfg <= maxReconnectDelay cfg)%Z.

Lemma client_run_snoc tr e st :
  Client.run cfg (tr ++ [e]) st = Client.step cfg e (Client.run cfg tr st).
Proof. unfold Client.run. by rewrite fold_left_app. Qed.

(** After [k] failed attempts within the budget the client is connecting
    again, has counted [k] attempts and has doubled its delay [k] times, up
    to the ceiling. *)
Lemma failing_state k :
  k <= maxReconnectAttempts cfg ->
  let st := Client.run cfg (failing k) (init cfg) in
  status st = connecting
  /\ attempts st = k
  /\ delay st = Z.min (initialReconnectDelay cfg * 2 ^ Z.of_nat k)
                      (maxReconnectDelay cfg)
  /\ scheduled st = None
  /\ automatic st = true.
Proof.
  induction k as [|k IH]; intros Hk st.
  - subst st. simpl. repeat split. lia.
  - subst st. cbn [failing].
    replace (failing k ++ [Dropped; Timer])
      with ((failing k ++ [Dropped]) ++ [Timer]) by (by rewrite <- app_assoc).
    rewrite !client_run_snoc. cbn [Client.step].
    destruct IH as (Hs & Ha & Hd & Hsch & Hauto); [lia|].
    unfold on_drop. rewrite Hs, Hauto, Ha.
    replace (k <? maxReconnectAttempts cfg)%nat with true
      by (symmetry; apply Nat.ltb_lt; lia).
    cbn. repeat split. rewrite Hd, Nat2Z.inj_succ, Z.pow_succ_r by lia.
    assert (0 < 2 ^ Z.of_nat k)%Z by (apply Z.pow_pos_nonneg; lia).
    nia.
Qed.
End Backoff.

(** * Examples

    Two calls answered in reverse order. *)
Example answers_in_reverse_order :
  settled (run uuid_of
             [Connection fresh_socket; Call "search" []; Call "read_note" [];
              Message (Some {| id := uuid_of 2; result := Some (JString "note");
                               error := None |});
              Message (Some {| id := uuid_of 1; result := None;
                               error := Some "Search failed" |})]
             initial)
  = [(1, Resolved (Some (JString "note"))); (0, Rejected "Search failed")].
Proof. reflexivity. Qed.

(** A call that is never answered, and a response that comes too late. *)
Example late_response :
  let s := run uuid_of
             [Connection fresh_socket; Call "search" []; Elapse 30000;
              Message (Some {| id := uuid_of 1; result := Some JNull;
                               error := None |})]
             initial in
  settled s = [(0, Rejected "Request timeout after 30000ms")]
  /\ last (console s)
     = Some (WARN, "[plugin] received response for unknown request: id1").
Proof. split; reflexivity. Qed.

(** The active connection closes: the other one takes over; it closes too:
    calls fail until a plugin connects again. *)
Example failover :
  let s := run uuid_of
             [Connection fresh_socket; Connection fresh_socket; Close (uuid_of 0);
              Call "search" []; Close (uuid_of 1); Call "search" [];
              Connection fresh_socket; Call "search" []]
             initial in
  activeConnectionId s = Some (uuid_of 3)
  /\ settled s = [(1, Rejected NO_PLUGIN_MESSAGE)]
  /\ pendingRequests s !! uuid_of 2 = Some {| promise := 0; timeout := 0 |}
  /\ pendingRequests s !! uuid_of 4 = Some {| promise := 2; timeout := 1 |}.
Proof. repeat split; reflexivity. Qed.

(** The delays the plugin's client waits for when no attempt succeeds. *)
Example plugin_backoff :
  map (fun k => Client.scheduled
                  (Client.run Client.plugin_config
                     (Client.failing k ++ [Client.Dropped])
                     (Client.init Client.plugin_config)))
      (seq 0 11)
  = [Some 1000; Some 2000; Some 4000; Some 8000; Some 16000; Some 30000;
     Some 30000; Some 30000; Some 30000; Some 30000; None]%Z.
Proof. reflexivity. Qed.

(** * The guarantees *)

Lemma uuid_of_inj i j : uuid_of i = uuid_of j -> i = j.
Proof.
  unfold uuid_of. intros H. cbn [String.append] in H.
  injection H as H. by apply pretty_nat_inj in H.
Qed.

Lemma uuid_of_nonempty n : uuid_of n <> "".
Proof. done. Qed.

(** ** Response or deadline, whichever comes first *)

Section FirstEvent.
Variable uuidv4 : nat -> string.
Hypothesis uuidv4_inj : forall i j, uuidv4 i = uuidv4 j -> i = j.

Lemma handleResponse_timers (r : BridgeResponse) (s : State) (pr : PendingRequest) :
  pendingRequests s !! id r = Some pr ->
  timers (handleResponse r s)
  = filter (fun t => timerId t <> timeout pr) (timers s).
Proof. intros H. by rewrite (handleResponse_found r s pr 0 H). Qed.

(** A response with the id of a call that is still pending settles that call
    and ends it. *)
Lemma call_answered_by_response a p s tr r :
  reachable uuidv4 s -> writable s = true ->
  id r = uuidv4 (uuids s) ->
  let s' := run uuidv4 tr (sendRequest uuidv4 a p s) in
  promises s ∉ (settled s').*1 ->
  settled (handleResponse r s') = settled s' ++ [(promises s, outcome_of r)]
  /\ pendingRequests (handleResponse r s') !! uuidv4 (uuids s) = None
  /\ timer_of uuidv4 s ∉ timers (handleResponse r s').
Proof.
  intros Hr Hw Hid s' Hopen.
  pose proof (call_tracked uuidv4 uuidv4_inj a p s tr Hr Hw) as Htrack.
  fold s' in Htrack. cbv zeta in Htrack.
  assert (pendingRequests s' !! id r
          = Some {| promise := promises s; timeout := timerIds s |}) as Hp.
  { rewrite Hid.
    destruct Htrack as [(Hp & _)|[(_ & Hin & _)|(_ & r' & _ & _ & Hin)]]; [done|..];
      exfalso; apply Hopen.
    - by apply (list_elem_of_fmap_2 fst (settled s')
                  (promises s, Rejected TIMEOUT_MESSAGE)).
    - by apply (list_elem_of_fmap_2 fst (settled s') (promises s, outcome_of r')). }
  destruct (handleResponse_effect r s' _ Hp) as [Hs Hpend].
  split; [done|]. split.
  - rewrite Hpend, <- Hid. apply lookup_delete_eq.
  - rewrite (handleResponse_timers r s' _ Hp). intros Hin.
    apply list_elem_of_filter in Hin as [Hne _]. by apply Hne.
Qed.

(** The call is pending for as long as no response with its id has been
    handled and its deadline has not been reached. *)
Lemma call_still_pending a p s tr :
  reachable uuidv4 s -> writable s = true ->
  (forall r, Message (Some r) ∈ tr -> id r <> uuidv4 (uuids s)) ->
  let s' := run uuidv4 tr (sendRequest uuidv4 a p s) in
  (clock s' < clock s + REQUEST_TIMEOUT_MS)%Z ->
  promises s ∉ (settled s').*1.
Proof.
  intros Hr Hw Hnone s' Hearly.
  pose proof (call_tracked uuidv4 uuidv4_inj a p s tr Hr Hw) as Htrack.
  fold s' in Htrack. cbv zeta in Htrack.
  destruct Htrack as [(_ & _ & Hopen)|[(_ & _ & Hlate)|(_ & r & Hin & Hid & _)]].
  - done.
  - lia.
  - by apply Hnone in Hin.
Qed.

(** Once the promise of the call is settled, its entry is gone for good. *)
Lemma call_settled_entry_gone a p s tr o :
  reachable uuidv4 s -> writable s = true ->
  let s' := run uuidv4 tr (sendRequest uuidv4 a p s) in
  (promises s, o) ∈ settled s' ->
  pendingRequests s' !! uuidv4 (uuids s) = None.
Proof.
  intros Hr Hw s' Hin.
  pose proof (call_tracked uuidv4 uuidv4_inj a p s tr Hr Hw) as Htrack.
  fold s' in Htrack. cbv zeta in Htrack.
  destruct Htrack as [(_ & _ & Hopen)|[(Hp & _)|(Hp & _)]]; try done.
  exfalso. apply Hopen.
  by apply (list_elem_of_fmap_2 fst (settled s') (promises s, o)).
Qed.

(** The first response with the id of the call, handled before the deadline,
    is what the call is settled with. *)
Lemma call_first_response_wins a p s tr1 r tr2 :
  reachable uuidv4 s -> writable s = true ->
  id r = uuidv4 (uuids s) ->
  (forall r', Message (Some r') ∈ tr1 -> id r' <> uuidv4 (uuids s)) ->
  (clock (run uuidv4 tr1 (sendRequest uuidv4 a p s))
   < clock s + REQUEST_TIMEOUT_MS)%Z ->
  let s' := run uuidv4 (tr1 ++ Message (Some r) :: tr2)
              (sendRequest uuidv4 a p s) in
  (promises s, outcome_of r) ∈ settled s'
  /\ pendingRequests s' !! uuidv4 (uuids s) = None.
Proof.
  intros Hr Hw Hid Hnone Hearly s'.
  assert ((promises s, outcome_of r) ∈ settled s') as Hin.
  { subst s'. rewrite run_app.
    change (Message (Some r) :: tr2) with ([Message (Some r)] ++ tr2).
    rewrite run_app. apply run_settled. cbn [run fold_left step on_message].
    destruct (call_answered_by_response a p s tr1 r Hr Hw Hid) as [-> _].
    - by apply call_still_pending.
    - apply elem_of_app. right. by apply list_elem_of_singleton. }
  split; [done|]. by apply (call_settled_entry_gone a p s _ (outcome_of r)).
Qed.

(** The deadline, reached before any response with the id of the call was
    handled, rejects the call with the timeout error. *)
Lemma call_deadline_wins a p s tr1 tr2 :
  reachable uuidv4 s -> writable s = true ->
  (forall r', Message (Some r') ∈ tr1 -> id r' <> uuidv4 (uuids s)) ->
  (clock s + REQUEST_TIMEOUT_MS
   <= clock (run uuidv4 tr1 (sendRequest uuidv4 a p s)))%Z ->
  let s' := run uuidv4 (tr1 ++ tr2) (sendRequest uuidv4 a p s) in
  (promises s, Rejected TIMEOUT_MESSAGE) ∈ settled s'
  /\ pendingRequests s' !! uuidv4 (uuids s) = None.
Proof.
  intros Hr Hw Hnone Hlate s'.
  assert ((promises s, Rejected TIMEOUT_MESSAGE) ∈ settled s') as Hin.
  { subst s'. rewrite run_app. apply run_settled.
    pose proof (call_tracked uuidv4 uuidv4_inj a p s tr1 Hr Hw) as Htrack.
    cbv zeta in Htrack.
    destruct Htrack as [(_ & Ht & _)|[(_ & Hin & _)|(_ & r & Hin & Hid & _)]].
    - assert (reachable uuidv4 (run uuidv4 tr1 (sendRequest uuidv4 a p s))) as Hr1
        by (apply reachable_run, (reachable_step uuidv4 (Call a p)), Hr).
      apply (reachable_timely uuidv4 uuidv4_inj _ Hr1) in Ht. simpl in Ht. lia.
    - done.
    - by apply Hnone in Hin. }
  split; [done|].
  by apply (call_settled_entry_gone a p s _ (Rejected TIMEOUT_MESSAGE)).
Qed.
End FirstEvent.

(** C1.  Every call of [sendRequest] is answered exactly once, as long as
    [uuidv4] never returns the same identifier twice.  In whatever state the
    call is made and whatever events follow it, in whatever order (duplicate,
    late and foreign responses included): no promise ever has
    [resolve] or [reject] called on it twice; the promise of the call is
    settled at the latest when the request timeout has passed; what it is
    settled with is the no-connection error, the not-ready error, the timeout
    error, or the outcome of a response carrying the call's own id; and the
    entry of a dispatched call leaves the pending table exactly when its
    promise is settled, by the timer or by such a response.  Which of the
    two it is, is decided by which comes first: a response with the call's id
    that is handled while the call is pending settles the promise with the
    outcome of that envelope, deletes the entry and disarms the timer; the
    first such response, handled before the deadline, is what the call is
    settled with whatever follows; and when the deadline is reached before
    any such response, the call is rejected with the timeout error and its
    entry deleted, whatever follows. *)
Theorem every_call_is_answered_once
    (uuidv4 : nat -> string)
    (uuidv4_inj : forall i j, uuidv4 i = uuidv4 j -> i = j)
    (action : string) (payload : list (string * JSON))
    (s : State) (tr : list Event) :
  reachable uuidv4 s ->
  let q := promises s in
  let rid := uuidv4 (uuids s) in
  let s1 := sendRequest uuidv4 action payload s in
  let s' := run uuidv4 tr s1 in
  NoDup (settled s').*1
  /\ ((clock s + REQUEST_TIMEOUT_MS <= clock s')%Z -> q ∈ (settled s').*1)
  /\ (forall o, (q, o) ∈ settled s' ->
        (hasActiveConnection s = false /\ o = Rejected NO_PLUGIN_MESSAGE)
        \/ (hasActiveConnection s = true /\ writable s = false
            /\ o = Rejected NOT_READY_MESSAGE)
        \/ (writable s = true /\ o = Rejected TIMEOUT_MESSAGE)
        \/ (writable s = true
            /\ exists r, Message (Some r) ∈ tr /\ id r = rid /\ o = outcome_of r))
  /\ (writable s = true ->
        (pendingRequests s' !! rid = Some {| promise := q; timeout := timerIds s |}
         /\ q ∉ (settled s').*1)
        \/ (pendingRequests s' !! rid = None
            /\ (q, Rejected TIMEOUT_MESSAGE) ∈ settled s'
            /\ (clock s + REQUEST_TIMEOUT_MS <= clock s')%Z)
        \/ (pendingRequests s' !! rid = None
            /\ exists r, Message (Some r) ∈ tr /\ id r = rid
                         /\ (q, outcome_of r) ∈ settled s'))
  /\ (writable s = true ->
      forall r, id r = rid -> q ∉ (settled s').*1 ->
        settled (handleResponse r s') = settled s' ++ [(q, outcome_of r)]
        /\ pendingRequests (handleResponse r s') !! rid = None
        /\ timer_of uuidv4 s ∉ timers (handleResponse r s'))
  /\ (writable s = true ->
      forall tr1 r tr2,
        tr = tr1 ++ Message (Some r) :: tr2 ->
        id r = rid ->
        (forall r', Message (Some r') ∈ tr1 -> id r' <> rid) ->
        (clock (run uuidv4 tr1 s1) < clock s + REQUEST_TIMEOUT_MS)%Z ->
        (q, outcome_of r) ∈ settled s' /\ pendingRequests s' !! rid = None)
  /\ (writable s = true ->
      forall tr1 tr2,
        tr = tr1 ++ tr2 ->
        (forall r', Message (Some r') ∈ tr1 -> id r' <> rid) ->
        (clock s + REQUEST_TIMEOUT_MS <= clock (run uuidv4 tr1 s1))%Z ->
        (q, Rejected TIMEOUT_MESSAGE) ∈ settled s'
        /\ pendingRequests s' !! rid = None).
Proof.
  intros Hr q rid s1 s'.
  assert (reachable uuidv4 s') as Hr'
    by (apply reachable_run, (reachable_step uuidv4 (Call action payload)), Hr).
  pose proof (reachable_consistent uuidv4 uuidv4_inj s' Hr') as Hc'.
  pose proof (settled_once _ _ Hc') as Hnd.
  pose proof (call_tracked uuidv4 uuidv4_inj action payload s tr Hr) as Htrack.
  fold s1 s' q rid in Htrack. cbv zeta in Htrack.
  assert (Hnow : forall o,
            (q, o) ∈ settled s1 ->
            (q, o) ∈ settled s' /\ q ∈ (settled s').*1).
  { intros o Ho. apply (run_settled uuidv4 tr) in Ho. split; [done|].
    by apply (list_elem_of_fmap_2 fst (settled s') (q, o)). }
  assert (Hlast : forall l (x : nat * Settlement), x ∈ l ++ [x])
    by (intros l x; apply elem_of_app; right; by apply list_elem_of_singleton).
  assert (Hfirst :
    (writable s = true ->
     forall r, id r = rid -> q ∉ (settled s').*1 ->
       settled (handleResponse r s') = settled s' ++ [(q, outcome_of r)]
       /\ pendingRequests (handleResponse r s') !! rid = None
       /\ timer_of uuidv4 s ∉ timers (handleResponse r s'))
    /\ (writable s = true ->
        forall tr1 r tr2,
          tr = tr1 ++ Message (Some r) :: tr2 ->
          id r = rid ->
          (forall r', Message (Some r') ∈ tr1 -> id r' <> rid) ->
          (clock (run uuidv4 tr1 s1) < clock s + REQUEST_TIMEOUT_MS)%Z ->
          (q, outcome_of r) ∈ settled s' /\ pendingRequests s' !! rid = None)
    /\ (writable s = true ->
        forall tr1 tr2,
          tr = tr1 ++ tr2 ->
          (forall r', Message (Some r') ∈ tr1 -> id r' <> rid) ->
          (clock s + REQUEST_TIMEOUT_MS <= clock (run uuidv4 tr1 s1))%Z ->
          (q, Rejected TIMEOUT_MESSAGE) ∈ settled s'
          /\ pendingRequests s' !! rid = None)).
  { split; [|split].
    - intros Hw r Hid Hopen.
      by apply (call_answered_by_response uuidv4 uuidv4_inj action payload s tr r).
    - intros Hw tr1 r tr2 Htr Hid Hnone Hearly. subst s'. rewrite Htr.
      by apply (call_first_response_wins uuidv4 uuidv4_inj action payload s tr1 r tr2).
    - intros Hw tr1 tr2 Htr Hnone Hlate. subst s'. rewrite Htr.
      by apply (call_deadline_wins uuidv4 uuidv4_inj action payload s tr1 tr2). }
  split; [done|].
  destruct (sendRequest_cases uuidv4 action payload s)
    as [[Hh Heq]|[(Hh & Hw & Heq)|(k & ws & Ha & Hk & Hopen & _)]].
  - destruct (Hnow (Rejected NO_PLUGIN_MESSAGE)) as [Hin Hq].
    { subst s1. rewrite Heq. state_simpl. apply Hlast. }
    split; [done|]. split; [|split; [|done]].
    + intros o Ho. left. split; [done|]. by apply (settled_unique s' q).
    + intros Hw. apply writable_hasActiveConnection in Hw. congruence.
  - destruct (Hnow (Rejected NOT_READY_MESSAGE)) as [Hin Hq].
    { subst s1. rewrite Heq. unfold retire, timer_of. state_simpl. apply Hlast. }
    split; [done|]. split; [|split; [|done]].
    + intros o Ho. right. left. repeat split; try done.
      by apply (settled_unique s' q).
    + congruence.
  - assert (writable s = true) as Hw by (unfold writable; by rewrite Ha, Hk).
    specialize (Htrack Hw).
    split; [|split; [|split; [|done]]].
    + intros Hlate.
      destruct Htrack as [(_ & Ht & _)|[(_ & Hin & _)|(_ & r & _ & _ & Hin)]].
      * apply (reachable_timely uuidv4 uuidv4_inj s' Hr') in Ht. simpl in Ht. lia.
      * by apply (list_elem_of_fmap_2 fst (settled s') (q, Rejected TIMEOUT_MESSAGE)).
      * by apply (list_elem_of_fmap_2 fst (settled s') (q, outcome_of r)).
    + intros o Ho. right. right.
      destruct Htrack as [(_ & _ & Hopen')|[(_ & Hin & _)|(_ & r & Hr1 & Hr2 & Hin)]].
      * exfalso. apply Hopen'.
        by apply (list_elem_of_fmap_2 fst (settled s') (q, o)).
      * left. split; [done|]. by apply (settled_unique s' q).
      * right. split; [done|]. exists r. repeat split; try done.
        by apply (settled_unique s' q).
    + intros _. destruct Htrack as [(Hp & _ & Hopen')|[H|H]]; auto.
Qed.

Lemma every_call_is_answered_once_witness :
  let s := run uuid_of connected_trace initial in
  let tr := [Message (Some first_answer); Message (Some first_answer); Elapse 30000] in
  let s' := run uuid_of tr (sendRequest uuid_of "search" [] s) in
  NoDup (settled s').*1
  /\ (promises s, outcome_of first_answer) ∈ settled s'
  /\ pendingRequests s' !! uuid_of (uuids s) = None
  /\ settled s' = [(0, Resolved (Some (JString "ok")))].
Proof.
  pose proof (every_call_is_answered_once uuid_of uuid_of_inj "search" []
                (run uuid_of connected_trace initial)
                [Message (Some first_answer); Message (Some first_answer);
                 Elapse 30000]
                (ex_intro _ connected_trace eq_refl)) as H.
  destruct H as (Hnd & _ & _ & _ & _ & Hfirst & _).
  destruct (Hfirst eq_refl [] first_answer
              [Message (Some first_answer); Elapse 30000]
              eq_refl eq_refl) as [Hin Hgone].
  - intros r' Hr'. by apply elem_of_nil in Hr'.
  - vm_compute. reflexivity.
  - exact (conj Hnd (conj Hin (conj Hgone eq_refl))).
Defined.

(** C2.  As long as [uuidv4] never returns the same identifier twice, two
    calls in flight at the same time have different correlation ids, and
    their responses are routed by id alone: whether B's response is
    handled before A's or after it, A's promise is settled with the outcome
    of the envelope carrying A's id, B's promise with that of the envelope
    carrying B's id, and nothing else is settled. *)
Theorem concurrent_calls_are_routed_by_id
    (uuidv4 : nat -> string)
    (uuidv4_inj : forall i j, uuidv4 i = uuidv4 j -> i = j)
    (actionA actionB : string) (payloadA payloadB : list (string * JSON))
    (s : State) (tr : list Event) :
  reachable uuidv4 s ->
  writable s = true ->
  let s1 := run uuidv4 tr (sendRequest uuidv4 actionA payloadA s) in
  writable s1 = true ->
  promises s ∉ (settled s1).*1 ->
  let s2 := sendRequest uuidv4 actionB payloadB s1 in
  let idA := uuidv4 (uuids s) in
  let idB := uuidv4 (uuids s1) in
  idA <> idB
  /\ promises s <> promises s1
  /\ forall rA rB, id rA = idA -> id rB = idB ->
       settled (handleResponse rA (handleResponse rB s2))
       = settled s2 ++ [(promises s1, outcome_of rB); (promises s, outcome_of rA)]
       /\ settled (handleResponse rB (handleResponse rA s2))
          = settled s2 ++ [(promises s, outcome_of rA); (promises s1, outcome_of rB)].
Proof.
  intros Hr Hw s1 Hw1 HopenA s2 idA idB.
  assert (uuids s < uuids s1 /\ promises s < promises s1) as [Hu Hq].
  { pose proof (run_counters uuidv4 tr (sendRequest uuidv4 actionA payloadA s))
      as (_ & Hu & Hq). fold s1 in Hu, Hq.
    destruct (sendRequest_cases uuidv4 actionA payloadA s)
      as [[Hh _]|[(_ & Hnw & _)|(k & ws & _ & _ & _ & Heq)]].
    - apply writable_hasActiveConnection in Hw. congruence.
    - congruence.
    - rewrite Heq in Hu, Hq. unfold armed in Hu, Hq. state_simpl. lia. }
  assert (idA <> idB) as Hne.
  { intros Heq. apply uuidv4_inj in Heq. lia. }
  assert (settled s2 = settled s1
          /\ pendingRequests s2
             = <[idB := {| promise := promises s1; timeout := timerIds s1 |}]>
                 (pendingRequests s1)) as [Hs2 Hp2].
  { subst s2. destruct (sendRequest_cases uuidv4 actionB payloadB s1)
      as [[Hh _]|[(_ & Hnw & _)|(k & ws & _ & _ & _ & ->)]].
    - apply writable_hasActiveConnection in Hw1. congruence.
    - congruence.
    - done. }
  assert (pendingRequests s2 !! idA
          = Some {| promise := promises s; timeout := timerIds s |}) as HpA.
  { pose proof (call_tracked uuidv4 uuidv4_inj actionA payloadA s
                  (tr ++ [Call actionB payloadB]) Hr Hw) as Htrack.
    cbv zeta in Htrack. rewrite run_snoc in Htrack. cbn [step] in Htrack.
    fold s1 s2 idA in Htrack.
    destruct Htrack as [(Hp & _)|[(_ & Hin & _)|(_ & r & _ & _ & Hin)]]; [done|..];
      exfalso; apply HopenA; rewrite <- Hs2.
    - by apply (list_elem_of_fmap_2 fst (settled s2)
                  (promises s, Rejected TIMEOUT_MESSAGE)).
    - by apply (list_elem_of_fmap_2 fst (settled s2) (promises s, outcome_of r)). }
  assert (pendingRequests s2 !! idB
          = Some {| promise := promises s1; timeout := timerIds s1 |}) as HpB
    by (rewrite Hp2; apply lookup_insert_eq).
  split; [done|]. split; [lia|].
  intros rA rB HidA HidB. rewrite <- HidA in HpA. rewrite <- HidB in HpB.
  assert (id rA <> id rB) as Hne' by congruence.
  split.
  - destruct (handleResponse_effect rB s2 _ HpB) as [HsB HpB'].
    destruct (handleResponse_effect rA (handleResponse rB s2)
                {| promise := promises s; timeout := timerIds s |}) as [HsA _].
    { rewrite HpB'. by rewrite lookup_delete_ne. }
    rewrite HsA, HsB, <- app_assoc. done.
  - destruct (handleResponse_effect rA s2 _ HpA) as [HsA HpA'].
    destruct (handleResponse_effect rB (handleResponse rA s2)
                {| promise := promises s1; timeout := timerIds s1 |}) as [HsB _].
    { rewrite HpA'. by rewrite lookup_delete_ne. }
    rewrite HsB, HsA, <- app_assoc. done.
Qed.

Lemma concurrent_calls_are_routed_by_id_witness :
  let s := run uuid_of connected_trace initial in
  let s1 := run uuid_of [Heartbeat] (sendRequest uuid_of "search" [] s) in
  let s2 := sendRequest uuid_of "read_note" [] s1 in
  uuid_of (uuids s) <> uuid_of (uuids s1)
  /\ promises s <> promises s1
  /\ forall rA rB, id rA = uuid_of (uuids s) -> id rB = uuid_of (uuids s1) ->
       settled (handleResponse rA (handleResponse rB s2))
       = settled s2 ++ [(promises s1, outcome_of rB); (promises s, outcome_of rA)]
       /\ settled (handleResponse rB (handleResponse rA s2))
          = settled s2 ++ [(promises s, outcome_of rA); (promises s1, outcome_of rB)].
Proof.
  refine (concurrent_calls_are_routed_by_id uuid_of uuid_of_inj
            "search" "read_note" [] []
            (run uuid_of connected_trace initial) [Heartbeat]
            (ex_intro _ connected_trace eq_refl) eq_refl eq_refl _).
  intros Hin. vm_compute in Hin. by apply elem_of_nil in Hin.
Defined.

(** C3.  As long as [uuidv4] never returns the same identifier twice, a
    dispatched call to which no response with its id is handled stays
    pending, with its entry in the table, for as long as less than
    [REQUEST_TIMEOUT_MS] = 30000 ms have passed since the dispatch; once that
    time has passed it has been rejected with "Request timeout after
    30000ms" and its entry is gone, so that any response carrying its id that
    arrives later, after whatever other events, is discarded with a warning
    and changes nothing else. *)
Theorem unanswered_call_times_out
    (uuidv4 : nat -> string)
    (uuidv4_inj : forall i j, uuidv4 i = uuidv4 j -> i = j)
    (action : string) (payload : list (string * JSON))
    (s : State) (tr : list Event) :
  reachable uuidv4 s ->
  writable s = true ->
  (forall r, Message (Some r) ∈ tr -> id r <> uuidv4 (uuids s)) ->
  let q := promises s in
  let rid := uuidv4 (uuids s) in
  let s' := run uuidv4 tr (sendRequest uuidv4 action payload s) in
  REQUEST_TIMEOUT_MS = 30000%Z
  /\ TIMEOUT_MESSAGE = "Request timeout after 30000ms"
  /\ ((clock s' < clock s + REQUEST_TIMEOUT_MS)%Z ->
        pendingRequests s' !! rid = Some {| promise := q; timeout := timerIds s |}
        /\ q ∉ (settled s').*1)
  /\ ((clock s + REQUEST_TIMEOUT_MS <= clock s')%Z ->
        (q, Rejected TIMEOUT_MESSAGE) ∈ settled s'
        /\ pendingRequests s' !! rid = None
        /\ forall tr' r, id r = rid ->
             let s'' := run uuidv4 tr' s' in
             handleResponse r s''
             = print WARN ("[plugin] received response for unknown request: "
                           +:+ rid) s'').
Proof.
  intros Hr Hw Hnone q rid s'.
  pose proof (call_tracked uuidv4 uuidv4_inj action payload s tr Hr Hw) as Htrack.
  fold s' q rid in Htrack. cbv zeta in Htrack.
  assert (reachable uuidv4 s') as Hr'
    by (apply reachable_run, (reachable_step uuidv4 (Call action payload)), Hr).
  split; [done|]. split; [done|].
  assert (Hcases :
    (pendingRequests s' !! rid = Some {| promise := q; timeout := timerIds s |}
     /\ (q ∉ (settled s').*1) /\ (clock s' < clock s + REQUEST_TIMEOUT_MS)%Z)
    \/ (pendingRequests s' !! rid = None
        /\ (q, Rejected TIMEOUT_MESSAGE) ∈ settled s'
        /\ (clock s + REQUEST_TIMEOUT_MS <= clock s')%Z)).
  { destruct Htrack as [(Hp & Ht & Hopen)|[H|(_ & r & Hin & Hid & _)]].
    - left. repeat split; try done.
      apply (reachable_timely uuidv4 uuidv4_inj s' Hr') in Ht. simpl in Ht. lia.
    - by right.
    - by apply Hnone in Hin. }
  split.
  - intros Hearly. destruct Hcases as [(Hp & Hopen & _)|(_ & _ & Hlate)]; [done|lia].
  - intros Hlate. destruct Hcases as [(_ & _ & Hearly)|(Hp & Hin & _)]; [lia|].
    split; [done|]. split; [done|]. intros tr' r Hid s''. rewrite <- Hid.
    apply handleResponse_unknown. rewrite Hid.
    pose proof (call_tracked uuidv4 uuidv4_inj action payload s (tr ++ tr') Hr Hw)
      as Htrack'.
    cbv zeta in Htrack'. rewrite run_app in Htrack'. fold s' s'' q rid in Htrack'.
    destruct Htrack' as [(_ & _ & Hopen)|[(Hp' & _)|(Hp' & _)]]; try done.
    exfalso. apply Hopen.
    apply (list_elem_of_fmap_2 fst (settled s'') (q, Rejected TIMEOUT_MESSAGE)).
    by apply run_settled.
Qed.

Lemma unanswered_call_times_out_witness :
  let s := run uuid_of connected_trace initial in
  let tr := [Heartbeat; Elapse 29999; Elapse 1] in
  let s' := run uuid_of tr (sendRequest uuid_of "search" [] s) in
  (promises s, Rejected TIMEOUT_MESSAGE) ∈ settled s'
  /\ pendingRequests s' !! uuid_of (uuids s) = None
  /\ forall tr' r, id r = uuid_of (uuids s) ->
       let s'' := run uuid_of tr' s' in
       handleResponse r s''
       = print WARN ("[plugin] received response for unknown request: "
                     +:+ uuid_of (uuids s)) s''.
Proof.
  refine (proj2 (proj2 (proj2
    (unanswered_call_times_out uuid_of uuid_of_inj "search" []
       (run uuid_of connected_trace initial) [Heartbeat; Elapse 29999; Elapse 1]
       (ex_intro _ connected_trace eq_refl) eq_refl _))) _).
  - intros r Hin. repeat (apply elem_of_cons in Hin as [Hin|Hin]; [discriminate Hin|]).
    by apply elem_of_nil in Hin.
  - vm_compute. discriminate.
Defined.

(** C4.  A response whose id has no entry in the pending table is discarded
    with a warning and nothing else: [handleResponse] returns the state it
    was given plus one [console.warn] line, so the pending table, the timers
    and every promise are untouched.  That is the case of an id that was
    never a key of the table, and also of an id that was answered before or
    whose timer has fired: a second response, and a response after the
    timeout, are discarded in the same way. *)
Theorem unknown_response_is_discarded (r : BridgeResponse) (s : State) :
  pendingRequests s !! id r = None ->
  (handleResponse r s
   = print WARN ("[plugin] received response for unknown request: " +:+ id r) s
   /\ pendingRequests (handleResponse r s) = pendingRequests s
   /\ timers (handleResponse r s) = timers s
   /\ settled (handleResponse r s) = settled s)
  /\ (forall r0 s0, id r0 = id r ->
        handleResponse r (handleResponse r0 s0)
        = print WARN ("[plugin] received response for unknown request: " +:+ id r)
            (handleResponse r0 s0))
  /\ (forall t s0, t_requestId t = id r ->
        handleResponse r (on_timeout t s0)
        = print WARN ("[plugin] received response for unknown request: " +:+ id r)
            (on_timeout t s0)).
Proof.
  intros H. split; [by rewrite handleResponse_unknown|]. split.
  - intros r0 s0 Hid. apply handleResponse_unknown. rewrite <- Hid.
    destruct (pendingRequests s0 !! id r0) as [pr|] eqn:E.
    + destruct (handleResponse_effect r0 s0 pr E) as [_ ->]. apply lookup_delete_eq.
    + by rewrite handleResponse_unknown.
  - intros t s0 Hid. apply handleResponse_unknown. rewrite <- Hid.
    unfold on_timeout. state_simpl. apply lookup_delete_eq.
Qed.

Lemma unknown_response_is_discarded_witness :
  let r := {| id := "never-issued"; result := Some JNull; error := None |} in
  handleResponse r initial
  = print WARN "[plugin] received response for unknown request: never-issued" initial
  /\ pendingRequests (handleResponse r initial) = pendingRequests initial
  /\ timers (handleResponse r initial) = timers initial
  /\ settled (handleResponse r initial) = settled initial.
Proof.
  exact (proj1 (unknown_response_is_discarded
                  {| id := "never-issued"; result := Some JNull; error := None |}
                  initial eq_refl)).
Defined.

(** C5 as stated fails: the connection promoted by the close handler may not
    be open (here it is closing), and then a dispatch is not sent on it, nor
    anywhere else. *)
Lemma promoted_connection_may_not_be_open :
  ~ (forall (s : State) (c action : string) (payload : list (string * JSON)),
       reachable uuid_of s ->
       activeConnectionId s = Some c ->
       map_keys (map_delete c (connections s)) <> [] ->
       let s' := on_close c s in
       exists k ws ws',
         activeConnectionId s' = Some k
         /\ map_get k (connections s') = Some ws
         /\ map_get k (connections (sendRequest uuid_of action payload s')) = Some ws'
         /\ sent ws' = sent ws ++ [FRequest {| req_id := uuid_of (uuids s');
                                               req_action := action;
                                               req_payload := payload |}]).
Proof.
  intros H.
  destruct (H (run uuid_of second_closing_trace initial) (uuid_of 0) "search" []
              (ex_intro _ second_closing_trace eq_refl) eq_refl)
    as (k & ws & ws' & Hk & Hws & Hws' & Hsent).
  - vm_compute. discriminate.
  - vm_compute in Hk. injection Hk as <-.
    vm_compute in Hws. injection Hws as <-.
    vm_compute in Hws'. injection Hws' as <-.
    vm_compute in Hsent. discriminate Hsent.
Qed.

(** C5, amended.  When the close handler removes the active connection and
    other connections remain, the earliest registered of them becomes the
    active one and [hasActiveConnection()] stays true; until that connection
    closes in its turn, every dispatch goes to it: the request is written on
    its socket when the socket is open, and otherwise it is written on no
    socket and the call is rejected with "WebSocket connection not ready".
    When no connection remains, [hasActiveConnection()] is false and, until a
    connection is registered, every dispatch is rejected on the spot with the
    no-connection error, storing nothing; registering a connection makes
    [hasActiveConnection()] true again.  (Connection identifiers are not
    empty strings.) *)
Theorem close_of_active_connection
    (uuidv4 : nat -> string)
    (uuidv4_nonempty : forall n, uuidv4 n <> "")
    (c : string) (s : State) :
  reachable uuidv4 s ->
  activeConnectionId s = Some c ->
  let s' := on_close c s in
  match map_keys (map_delete c (connections s)) with
  | k :: _ =>
      activeConnectionId s' = Some k
      /\ hasActiveConnection s' = true
      /\ forall tr,
           Forall (fun e => closes k e = false) tr ->
           let s'' := run uuidv4 tr s' in
           activeConnectionId s'' = Some k
           /\ hasActiveConnection s'' = true
           /\ exists ws,
                map_get k (connections s'') = Some ws
                /\ forall action payload,
                     let s3 := sendRequest uuidv4 action payload s'' in
                     if is_OPEN ws then
                       connections s3
                       = map_set k
                           (ws_send (FRequest {| req_id := uuidv4 (uuids s'');
                                                 req_action := action;
                                                 req_payload := payload |}) ws)
                           (connections s'')
                       /\ settled s3 = settled s''
                     else
                       connections s3 = connections s''
                       /\ settled s3
                          = settled s'' ++ [(promises s'', Rejected NOT_READY_MESSAGE)]
  | [] =>
      activeConnectionId s' = None
      /\ hasActiveConnection s' = false
      /\ forall tr,
           Forall (fun e => is_connection e = false) tr ->
           let s'' := run uuidv4 tr s' in
           hasActiveConnection s'' = false
           /\ (forall action payload,
                 sendRequest uuidv4 action payload s''
                 = settle (promises s'') (Rejected NO_PLUGIN_MESSAGE)
                          (new_promise s''))
           /\ (forall ws,
                 hasActiveConnection (snd (addConnection uuidv4 ws s'')) = true)
  end.
Proof.
  intros Hr Ha s'.
  assert (connections s' = map_delete c (connections s)
          /\ activeConnectionId s'
             = match map_keys (map_delete c (connections s)) with
               | k :: _ => Some k
               | [] => None
               end) as [Hconn Hact].
  { subst s'. unfold on_close. state_simpl. rewrite Ha. state_simpl.
    rewrite String.eqb_refl. done. }
  assert (keys_issued uuidv4 s') as Hissued
    by (apply reachable_keys_issued, (reachable_step uuidv4 (Close c)), Hr).
  destruct (map_keys (map_delete c (connections s))) as [|k rest] eqn:Hkeys.
  - split; [done|]. split; [unfold hasActiveConnection; by rewrite Hact|].
    intros tr Hall s''.
    pose proof (run_keeps_inactive uuidv4 tr s' Hall Hact) as Hnone. fold s'' in Hnone.
    assert (hasActiveConnection s'' = false) as Hh
      by (unfold hasActiveConnection; by rewrite Hnone).
    split; [done|]. split.
    + intros action payload. by apply sendRequest_no_connection.
    + intros ws. by apply addConnection_hasActiveConnection.
  - assert (In k (map_keys (connections s'))) as Hin'
      by (rewrite Hconn, Hkeys; by left).
    assert (hasActiveConnection s' = true) as Hh
      by (unfold hasActiveConnection; rewrite Hact; by apply map_has_keys).
    assert (k <> "") as Hne
      by (destruct (Hissued k Hin') as [n ->]; apply uuidv4_nonempty).
    split; [done|]. split; [done|]. intros tr Hall s''.
    destruct (run_keeps_promoted uuidv4 tr s' k Hne Hall Hact Hin') as [Hact'' Hin''].
    fold s'' in Hact'', Hin''.
    assert (hasActiveConnection s'' = true) as Hh''
      by (unfold hasActiveConnection; rewrite Hact''; by apply map_has_keys).
    split; [done|]. split; [done|].
    apply map_get_keys in Hin'' as [ws Hws]. exists ws. split; [done|].
    intros action payload s3. subst s3. destruct (is_OPEN ws) eqn:Hopen.
    + by rewrite (sendRequest_sent uuidv4 action payload s'' k ws).
    + rewrite sendRequest_not_ready; [done|done|].
      unfold writable. by rewrite Hact'', Hws.
Qed.

Lemma close_of_active_connection_witness :
  let s := run uuid_of second_closing_trace initial in
  let s' := on_close (uuid_of 0) s in
  activeConnectionId s' = Some (uuid_of 1) /\ hasActiveConnection s' = true.
Proof.
  pose proof (close_of_active_connection uuid_of uuid_of_nonempty (uuid_of 0)
                (run uuid_of second_closing_trace initial)
                (ex_intro _ second_closing_trace eq_refl) eq_refl) as H.
  exact (conj (proj1 H) (proj1 (proj2 H))).
Defined.

(** C6.  When the manager has an active connection whose socket is not open
    at dispatch time, the call is rejected on the spot with "WebSocket
    connection not ready", its timer is disarmed and its entry removed: the
    pending table, the armed timers and the sockets after the failed dispatch
    are those before it (the identifier drawn for the call being a new
    one). *)
Theorem unwritable_dispatch_fails
    (uuidv4 : nat -> string)
    (uuidv4_inj : forall i j, uuidv4 i = uuidv4 j -> i = j)
    (action : string) (payload : list (string * JSON)) (s : State) :
  reachable uuidv4 s ->
  hasActiveConnection s = true ->
  writable s = false ->
  let s' := sendRequest uuidv4 action payload s in
  settled s' = settled s ++ [(promises s, Rejected NOT_READY_MESSAGE)]
  /\ pendingRequests s' = pendingRequests s
  /\ timers s' = timers s
  /\ connections s' = connections s.
Proof.
  intros Hr Hh Hw s'. subst s'.
  pose proof (reachable_consistent uuidv4 uuidv4_inj s Hr) as Hc.
  rewrite sendRequest_not_ready by done. state_simpl.
  split; [done|]. split; [|split; [|done]].
  - rewrite delete_insert_eq. apply delete_id. by apply consistent_fresh.
  - rewrite filter_app, filter_all.
    + rewrite filter_cons_False, filter_nil, app_nil_r; [done|]. simpl. tauto.
    + intros t Ht. apply (timer_id_bound _ _ Hc) in Ht. lia.
Qed.

Lemma unwritable_dispatch_fails_witness :
  let s := run uuid_of closing_trace initial in
  let s' := sendRequest uuid_of "read_note" [("remId", JString "r1")] s in
  settled s' = settled s ++ [(promises s, Rejected NOT_READY_MESSAGE)]
  /\ pendingRequests s' = pendingRequests s
  /\ timers s' = timers s
  /\ connections s' = connections s.
Proof.
  exact (unwritable_dispatch_fails uuid_of uuid_of_inj
           "read_note" [("remId", JString "r1")]
           (run uuid_of closing_trace initial)
           (ex_intro _ closing_trace eq_refl) eq_refl eq_refl).
Defined.

(** C7 as stated fails: a matching response that carries the empty string as
    its error does not reject the call, it resolves it with the result. *)
Lemma empty_error_resolves :
  ~ (forall (r : BridgeResponse) (s : State) (pr : PendingRequest) (m : string),
       pendingRequests s !! id r = Some pr ->
       error r = Some m ->
       settled (handleResponse r s) = settled s ++ [(promise pr, Rejected m)]).
Proof.
  intros H.
  specialize (H {| id := uuid_of 1; result := Some (JBool true); error := Some "" |}
                (run uuid_of [Connection fresh_socket; Call "search" []] initial)
                {| promise := 0; timeout := 0 |} "" eq_refl eq_refl).
  vm_compute in H. discriminate H.
Qed.

(** C7, amended.  A response that matches a pending call settles the promise
    of that call and no other: with the error string of the envelope,
    verbatim, when that string is not empty, and otherwise (no error field,
    or the empty string) with the result of the envelope. *)
Theorem matching_response_settles (r : BridgeResponse) (s : State) (pr : PendingRequest) :
  pendingRequests s !! id r = Some pr ->
  settled (handleResponse r s)
  = settled s ++ [(promise pr,
                   match error r with
                   | Some m => if String.eqb m "" then Resolved (result r)
                               else Rejected m
                   | None => Resolved (result r)
                   end)].
Proof.
  intros H. rewrite (handleResponse_found r s pr 0 H). unfold retire, outcome_of.
  state_simpl. destruct (error r) as [m|]; [|done]. simpl.
  by destruct (String.eqb m "").
Qed.

Lemma matching_response_settles_witness :
  let s := run uuid_of [Connection fresh_socket; Call "search" []] initial in
  settled (handleResponse
             {| id := uuid_of 1; result := None; error := Some "Note not found" |} s)
  = settled s ++ [(0, Rejected "Note not found")].
Proof.
  exact (matching_response_settles
           {| id := uuid_of 1; result := None; error := Some "Note not found" |}
           (run uuid_of [Connection fresh_socket; Call "search" []] initial)
           {| promise := 0; timeout := 0 |} eq_refl).
Defined.

(** C8.  The close handler never touches the pending table: whichever
    connection closes, every pending entry, every armed timer and every
    settled promise is as before, so a pending call is still answered by a
    later matching response, or else by its own timer. *)
Theorem close_keeps_pending_calls (c : string) (s : State) :
  let s' := on_close c s in
  pendingRequests s' = pendingRequests s
  /\ timers s' = timers s
  /\ settled s' = settled s
  /\ (forall r pr, pendingRequests s !! id r = Some pr ->
        settled (handleResponse r s') = settled s ++ [(promise pr, outcome_of r)])
  /\ (forall t, settled (on_timeout t s')
               = settled s ++ [(t_promise t, Rejected TIMEOUT_MESSAGE)]).
Proof.
  intros s'. destruct (on_close_bookkeeping c s) as (Hp & Ht & Hs & _).
  fold s' in Hp, Ht, Hs. repeat split; try done.
  - intros r pr Hl. rewrite <- Hp in Hl.
    rewrite (handleResponse_found r s' pr 0 Hl). unfold retire. state_simpl.
    by rewrite Hs.
  - intros t. unfold on_timeout. state_simpl. by rewrite Hs.
Qed.

(** C9.  For a client whose initial delay is at most its ceiling (as the
    plugin configures it: 1000 ms and 30000 ms, with 10 attempts): when every
    connection attempt fails, the reconnect scheduled after the [k]-th
    failure, for [k] from 1 to the attempt cap, waits for
    [min (initial * 2^(k-1)) ceiling] and is the [k]-th counted attempt; and
    when the attempts are used up the next failure schedules nothing, after
    which timers and failures leave the client as it is, disconnected, until
    [connect()] is called. *)
Theorem reconnect_backoff (cfg : Client.Config) (k : nat) :
  (0 <= Client.initialReconnectDelay cfg <= Client.maxReconnectDelay cfg)%Z ->
  (1 <= k <= Client.maxReconnectAttempts cfg ->
   let st := Client.run cfg (Client.failing (k - 1) ++ [Client.Dropped])
                        (Client.init cfg) in
   Client.status st = Client.disconnected
   /\ Client.scheduled st
      = Some (Z.min (Client.initialReconnectDelay cfg * 2 ^ Z.of_nat (k - 1))
                    (Client.maxReconnectDelay cfg))
   /\ Client.attempts st = k)
  /\ (let st := Client.run cfg
                  (Client.failing (Client.maxReconnectAttempts cfg)
                   ++ [Client.Dropped])
                  (Client.init cfg) in
      Client.status st = Client.disconnected
      /\ Client.scheduled st = None
      /\ Client.attempts st = Client.maxReconnectAttempts cfg
      /\ (forall tr,
            Forall (fun e => e = Client.Timer \/ e = Client.Dropped) tr ->
            Client.run cfg tr st = st)
      /\ Client.status (Client.connect st) = Client.connecting).
Proof.
  intros Hcfg. split.
  - intros Hk st. subst st. rewrite client_run_snoc. cbn [Client.step].
    destruct (failing_state cfg Hcfg (k - 1)) as (Hs & Ha & Hd & Hsch & Hauto); [lia|].
    unfold Client.on_drop. rewrite Hs, Hauto, Ha.
    replace (k - 1 <? Client.maxReconnectAttempts cfg)%nat with true
      by (symmetry; apply Nat.ltb_lt; lia).
    cbn. rewrite Hd. repeat split. lia.
  - intros st.
    destruct (failing_state cfg Hcfg (Client.maxReconnectAttempts cfg))
      as (Hs & Ha & Hd & Hsch & Hauto); [lia|].
    assert (Client.status st = Client.disconnected
            /\ Client.scheduled st = None
            /\ Client.attempts st = Client.maxReconnectAttempts cfg)
      as (Hs' & Hsch' & Ha').
    { subst st. rewrite client_run_snoc. cbn [Client.step].
      unfold Client.on_drop. rewrite Hs, Hauto, Ha, Nat.ltb_irrefl. by cbn. }
    repeat split; try done.
    + intros tr Hall. induction tr as [|e tr IH] using rev_ind; [done|].
      apply Forall_app in Hall as [Hall He]. rewrite Forall_singleton in He.
      rewrite client_run_snoc, (IH Hall).
      destruct He as [-> | ->]; cbn [Client.step].
      * unfold Client.on_timer. by rewrite Hsch'.
      * unfold Client.on_drop. by rewrite Hs'.
    + unfold Client.connect. by rewrite Hs'.
Qed.

Lemma reconnect_backoff_witness :
  let st := Client.run Client.plugin_config
              (Client.failing 5 ++ [Client.Dropped])
              (Client.init Client.plugin_config) in
  Client.status st = Client.disconnected
  /\ Client.scheduled st = Some 30000%Z
  /\ Client.attempts st = 6.
Proof.
  refine (proj1 (reconnect_backoff Client.plugin_config 6 _) _);
    unfold Client.plugin_config; simpl; lia.
Defined.

(** C10.  In every state reached by any interleaving of connections, close
    events, calls of [sendRequest], responses, heartbeats (and of timers and
    socket state changes), [activeConnectionId] is [null] or a key of the
    connections map; hence [hasActiveConnection()] is true exactly when
    [activeConnectionId] is not [null], and the lookup [sendRequest] makes
    after a successful check finds a tracked socket. *)
Theorem active_connection_is_tracked (uuidv4 : nat -> string) (tr : list Event) :
  let s := run uuidv4 tr initial in
  active_tracked s
  /\ (hasActiveConnection s = true <-> activeConnectionId s <> None)
  /\ (hasActiveConnection s = true ->
      exists a ws, activeConnectionId s = Some a
                   /\ map_get a (connections s) = Some ws).
Proof.
  intros s.
  assert (active_tracked s) as Hat
    by (apply (reachable_active_tracked uuidv4); by exists tr).
  split; [done|]. unfold active_tracked, hasActiveConnection in *.
  destruct (activeConnectionId s) as [a|]; [|split; [split; [done|]|]; done].
  apply map_has_keys in Hat. rewrite Hat. split; [done|]. intros _.
  unfold map_has in Hat. destruct (map_get a (connections s)) as [ws|] eqn:E; [|done].
  by exists a, ws.
Qed.

(** * Further properties of the manager *)

Section JsMapLookups.
Context {V : Type}.
Implicit Types (m : list (string * V)) (k : string) (v : V).

Lemma map_get_delete_eq k m : map_get k (map_delete k m) = None.
Proof.
  induction m as [|[k' v'] m IH]; simpl; [done|].
  destruct (String.eqb_spec k' k) as [->|Hne]; [done|]. simpl.
  by destruct (String.eqb_spec k' k).
Qed.

Lemma map_get_delete_ne k k' m :
  k' <> k -> map_get k' (map_delete k m) = map_get k' m.
Proof.
  intros Hne. induction m as [|[k0 v0] m IH]; simpl; [done|].
  destruct (String.eqb_spec k0 k) as [->|Hne0]; simpl.
  - destruct (String.eqb_spec k k'); [congruence|done].
  - by destruct (String.eqb_spec k0 k').
Qed.

Lemma map_delete_absent k m : map_get k m = None -> map_delete k m = m.
Proof.
  induction m as [|[k' v'] m IH]; simpl; [done|].
  destruct (String.eqb_spec k' k) as [->|Hne]; [done|].
  intros H. by rewrite IH.
Qed.

Lemma map_get_fmap (f : V -> V) k m :
  map_get k (map (fun '(k', w) => (k', f w)) m) = f <$> map_get k m.
Proof.
  induction m as [|[k' v'] m IH]; simpl; [done|].
  by destruct (String.eqb k' k).
Qed.

Lemma map_keys_head_set k v m k0 :
  head (map_keys m) = Some k0 -> head (map_keys (map_set k v m)) = Some k0.
Proof.
  destruct m as [|[k' v'] m]; simpl; [done|]. intros H.
  by destruct (String.eqb k' k).
Qed.
End JsMapLookups.

(** X1.  The heartbeat reaches every tracked socket that is open, and no
    other: each open socket has one ping appended to what it has sent, every
    other socket is as it was, and the set and order of the connections, the
    active connection, the pending table, the timers and the promises are
    untouched. *)
Theorem pingAll_pings_open_sockets (s : State) :
  (forall k,
     map_get k (connections (pingAll s))
     = (fun ws => if is_OPEN ws
                  then {| readyState := readyState ws; sent := sent ws ++ [FPing] |}
                  else ws) <$> map_get k (connections s))
  /\ map_keys (connections (pingAll s)) = map_keys (connections s)
  /\ activeConnectionId (pingAll s) = activeConnectionId s
  /\ pendingRequests (pingAll s) = pendingRequests s
  /\ timers (pingAll s) = timers s
  /\ settled (pingAll s) = settled s.
Proof.
  split; [|by destruct (pingAll_keys s)].
  intros k. unfold pingAll. state_simpl.
  rewrite (map_get_fmap (fun ws => if is_OPEN ws then ws_send FPing ws else ws)).
  destruct (map_get k (connections s)) as [ws|]; [|done]. simpl.
  unfold ws_send. by destruct (is_OPEN ws).
Qed.

Section Earliest.
Variable uuidv4 : nat -> string.
Hypothesis uuidv4_nonempty : forall n, uuidv4 n <> "".

Lemma step_active_is_earliest e s :
  keys_issued uuidv4 s -> active_is_earliest s ->
  active_is_earliest (step uuidv4 e s).
Proof.
  unfold active_is_earliest. intros Hissued Hhead.
  destruct (is_connection e) eqn:Hc; [|destruct (is_close e) eqn:Hd].
  - destruct e as [ws| | | | | |]; try done. cbn [step].
    rewrite addConnection_connections.
    unfold addConnection. state_simpl.
    destruct (activeConnectionId s) as [k|] eqn:Ha; cbn [falsy].
    + assert (k <> "") as Hne.
      { assert (In k (map_keys (connections s))) as Hin.
        { destruct (map_keys (connections s)) as [|k0 rest]; [done|].
          injection Hhead as Heq. left. by symmetry. }
        destruct (Hissued k Hin) as [n ->]. apply uuidv4_nonempty. }
      apply String.eqb_neq in Hne. rewrite Hne. state_simpl. rewrite Ha.
      symmetry. by do 2 apply map_keys_head_set.
    + state_simpl. destruct (connections s) as [|[k0 w0] rest]; [|done].
      simpl. by rewrite String.eqb_refl.
  - destruct e as [|c| | | | |]; try done. cbn [step].
    rewrite on_close_connections. unfold on_close. state_simpl.
    destruct (activeConnectionId s) as [k|] eqn:Ha; state_simpl.
    + destruct (String.eqb_spec k c) as [->|Hne]; state_simpl; [done|].
      rewrite Ha. destruct (connections s) as [|[k0 w0] rest]; [done|].
      simpl in Hhead. injection Hhead as Heq. subst k0. simpl.
      destruct (String.eqb_spec k c); [done|]. done.
    + rewrite Ha. destruct (connections s) as [|[k0 w0] rest]; [done|]. done.
  - destruct (step_keeps_active uuidv4 e s Hc Hd) as [-> ->]. done.
Qed.

Lemma reachable_active_is_earliest s :
  reachable uuidv4 s -> active_is_earliest s.
Proof.
  intros Hr. revert s Hr. apply reachable_ind; [done|].
  intros e s Hr. apply step_active_is_earliest.
  by apply reachable_keys_issued.
Qed.

Lemma reachable_hasActiveConnection s :
  reachable uuidv4 s -> hasActiveConnection s = true <-> connections s <> [].
Proof.
  intros Hr. pose proof (reachable_active_is_earliest s Hr) as Hhead.
  unfold active_is_earliest in Hhead.
  unfold hasActiveConnection. rewrite Hhead.
  destruct (connections s) as [|[k w] rest]; simpl; [done|].
  unfold map_has. simpl. by rewrite String.eqb_refl.
Qed.
End Earliest.

(** X2.  Whatever has happened, the active connection is the earliest
    registered connection that is still tracked, and there is none only when
    no connection is tracked: [hasActiveConnection()] is true exactly when the
    connections map is not empty.  (Connection identifiers are not empty
    strings.) *)
Theorem active_connection_is_earliest
    (uuidv4 : nat -> string)
    (uuidv4_nonempty : forall n, uuidv4 n <> "")
    (s : State) :
  reachable uuidv4 s ->
  activeConnectionId s = head (map_keys (connections s))
  /\ (hasActiveConnection s = true <-> connections s <> []).
Proof.
  intros Hr. split.
  - by apply (reachable_active_is_earliest uuidv4).
  - by apply (reachable_hasActiveConnection uuidv4).
Qed.

Lemma active_connection_is_earliest_witness :
  let s := run uuid_of [Connection fresh_socket; Connection fresh_socket;
                        Connection fresh_socket; Close (uuid_of 0)] initial in
  activeConnectionId s = head (map_keys (connections s))
  /\ (hasActiveConnection s = true <-> connections s <> []).
Proof.
  exact (active_connection_is_earliest uuid_of uuid_of_nonempty
           (run uuid_of [Connection fresh_socket; Connection fresh_socket;
                         Connection fresh_socket; Close (uuid_of 0)] initial)
           (ex_intro _ [Connection fresh_socket; Connection fresh_socket;
                        Connection fresh_socket; Close (uuid_of 0)] eq_refl)).
Defined.

(** X3.  Registering a socket tracks it under the identifier that is
    returned, with the [connected] frame written on it if it is open, and
    changes no other connection; it becomes the active connection when there
    was none (or an empty one) and leaves the active connection alone
    otherwise; and in a reachable state the manager has an active connection
    from then on. *)
Theorem addConnection_registers
    (uuidv4 : nat -> string) (ws : WebSocket) (s : State) :
  reachable uuidv4 s ->
  let cid := fst (addConnection uuidv4 ws s) in
  let s' := snd (addConnection uuidv4 ws s) in
  cid = uuidv4 (uuids s)
  /\ map_get cid (connections s') = Some (ws_send (FConnected cid) ws)
  /\ (forall k, k <> cid -> map_get k (connections s') = map_get k (connections s))
  /\ activeConnectionId s'
     = (if falsy (activeConnectionId s) then Some cid else activeConnectionId s)
  /\ hasActiveConnection s' = true
  /\ pendingRequests s' = pendingRequests s
  /\ timers s' = timers s
  /\ settled s' = settled s.
Proof.
  intros Hr cid s'.
  destruct (addConnection_bookkeeping uuidv4 ws s) as (Hp & Ht & Hs & _).
  assert (activeConnectionId s'
          = (if falsy (activeConnectionId s) then Some cid
             else activeConnectionId s)) as Hact.
  { subst s' cid. unfold addConnection. state_simpl.
    by destruct (falsy (activeConnectionId s)). }
  assert (connections s'
          = map_set cid (ws_send (FConnected cid) ws)
              (map_set cid ws (connections s))) as Hconn
    by apply addConnection_connections.
  split; [done|]. split; [by rewrite Hconn, map_get_set_eq|].
  split; [intros k Hk; by rewrite Hconn, !map_get_set_ne|].
  split; [done|]. split; [|done].
  unfold hasActiveConnection. rewrite Hact.
  pose proof (reachable_active_tracked uuidv4 s Hr) as Htr.
  unfold active_tracked in Htr.
  destruct (activeConnectionId s) as [a|] eqn:Ha; cbn [falsy].
  - destruct (String.eqb a "").
    + unfold map_has. by rewrite Hconn, map_get_set_eq.
    + apply map_has_keys. rewrite Hconn, !map_keys_set_In. auto.
  - unfold map_has. by rewrite Hconn, map_get_set_eq.
Qed.

Lemma addConnection_registers_witness :
  let s := run uuid_of connected_trace initial in
  let s' := snd (addConnection uuid_of fresh_socket s) in
  map_get (uuid_of 1) (connections s')
  = Some {| readyState := OPEN; sent := [FConnected (uuid_of 1)] |}
  /\ activeConnectionId s' = Some (uuid_of 0).
Proof.
  pose proof (addConnection_registers uuid_of fresh_socket
                (run uuid_of connected_trace initial)
                (ex_intro _ connected_trace eq_refl)) as H.
  exact (conj (proj1 (proj2 H)) (proj1 (proj2 (proj2 (proj2 H))))).
Defined.

(** X4.  When a connection other than the active one closes, or a close
    event arrives for an identifier that is not tracked, the active
    connection and [hasActiveConnection()] stay as they are; in every case
    the closed connection is no longer tracked, every other connection is
    untouched, and closing an untracked identifier changes no connection. *)
Theorem close_of_other_connection (c : string) (s : State) :
  activeConnectionId s <> Some c ->
  let s' := on_close c s in
  activeConnectionId s' = activeConnectionId s
  /\ hasActiveConnection s' = hasActiveConnection s
  /\ map_get c (connections s') = None
  /\ (forall k, k <> c -> map_get k (connections s') = map_get k (connections s))
  /\ (map_get c (connections s) = None -> connections s' = connections s).
Proof.
  intros Hne s'.
  assert (activeConnectionId s' = activeConnectionId s) as Hact.
  { subst s'. unfold on_close. state_simpl.
    destruct (activeConnectionId s) as [a|] eqn:Ha; state_simpl; [|done].
    destruct (String.eqb_spec a c) as [->|Hac]; [done|]. done. }
  assert (connections s' = map_delete c (connections s)) as Hconn
    by apply on_close_connections.
  split; [done|]. split.
  - unfold hasActiveConnection. rewrite Hact, Hconn.
    destruct (activeConnectionId s) as [a|]; [|done].
    unfold map_has. rewrite map_get_delete_ne; [done|]. congruence.
  - rewrite Hconn. split; [apply map_get_delete_eq|].
    split; [intros k Hk; by apply map_get_delete_ne|].
    apply map_delete_absent.
Qed.

Lemma close_of_other_connection_witness :
  let s := run uuid_of [Connection fresh_socket; Connection fresh_socket] initial in
  let s' := on_close (uuid_of 1) s in
  activeConnectionId s' = Some (uuid_of 0)
  /\ hasActiveConnection s' = true
  /\ map_get (uuid_of 1) (connections s') = None.
Proof.
  assert (activeConnectionId
            (run uuid_of [Connection fresh_socket; Connection fresh_socket] initial)
          <> Some (uuid_of 1)) as Hne by (vm_compute; discriminate).
  pose proof (close_of_other_connection (uuid_of 1)
                (run uuid_of [Connection fresh_socket; Connection fresh_socket]
                     initial) Hne) as H.
  exact (conj (proj1 H) (conj (proj1 (proj2 H)) (proj1 (proj2 (proj2 H))))).
Defined.

(** X5.  Timers and pending calls never get out of step: in every reachable
    state each armed timer is the timer of one pending entry and each pending
    entry has its timer armed, so there are as many armed timers as pending
    entries; no exit path of a call leaves a timer behind, and none leaves an
    entry without its timer.  ([uuidv4] never returns the same identifier
    twice.) *)
Theorem timers_match_pending_calls
    (uuidv4 : nat -> string)
    (uuidv4_inj : forall i j, uuidv4 i = uuidv4 j -> i = j)
    (s : State) :
  reachable uuidv4 s ->
  size (pendingRequests s) = length (timers s)
  /\ (forall t, t ∈ timers s ->
        pendingRequests s !! t_requestId t
        = Some {| promise := t_promise t; timeout := timerId t |})
  /\ (forall rid pr, pendingRequests s !! rid = Some pr ->
        exists t, t ∈ timers s /\ t_requestId t = rid
                  /\ timerId t = timeout pr /\ t_promise t = promise pr).
Proof.
  intros Hr. pose proof (reachable_consistent uuidv4 uuidv4_inj s Hr) as Hc.
  split; [|split].
  - set (entry := fun t : Timer =>
                    (t_requestId t, {| promise := t_promise t; timeout := timerId t |})).
    assert (NoDup (entry <$> timers s).*1) as Hnd.
    { rewrite <- list_fmap_compose. apply NoDup_fmap_2_strong.
      - intros t1 t2 H1 H2 Heq. simpl in Heq.
        pose proof (timer_pending _ _ Hc t1 H1) as Hp1.
        pose proof (timer_pending _ _ Hc t2 H2) as Hp2.
        rewrite Heq, Hp2 in Hp1. injection Hp1 as _ Hid.
        by apply (NoDup_fmap_eq timerId (timers s)); [apply Hc|..].
      - apply (NoDup_fmap_1 timerId), Hc. }
    assert (pendingRequests s = list_to_map (entry <$> timers s)) as Heq.
    { apply map_eq. intros rid. symmetry.
      destruct (pendingRequests s !! rid) as [pr|] eqn:E.
      - apply elem_of_list_to_map; [done|].
        destruct (pending_timer _ _ Hc rid pr E) as [d Hd].
        apply list_elem_of_fmap. eexists. split; [|exact Hd].
        unfold entry. simpl. by destruct pr.
      - apply not_elem_of_list_to_map. intros Hin.
        apply list_elem_of_fmap in Hin as ([rid' pr'] & Hrid & Hin).
        simpl in Hrid. subst rid'.
        apply list_elem_of_fmap in Hin as (t & Ht & Hin).
        unfold entry in Ht. injection Ht as -> _.
        apply (timer_pending _ _ Hc) in Hin. congruence. }
    rewrite Heq, map_size_list_to_map by done. by rewrite length_fmap.
  - apply Hc.
  - intros rid pr Hl. destruct (pending_timer _ _ Hc rid pr Hl) as [d Hd].
    eexists. split; [exact Hd|]. done.
Qed.

Lemma timers_match_pending_calls_witness :
  let s := run uuid_of
             [Connection fresh_socket; Call "search" []; Call "read_note" [];
              Message (Some first_answer); Call "search" []; Elapse 10]
             initial in
  size (pendingRequests s) = length (timers s).
Proof.
  exact (proj1 (timers_match_pending_calls uuid_of uuid_of_inj
                  (run uuid_of
                     [Connection fresh_socket; Call "search" []; Call "read_note" [];
                      Message (Some first_answer); Call "search" []; Elapse 10]
                     initial)
                  (ex_intro _ _ eq_refl))).
Defined.

(** X6.  The pending table drains: once [REQUEST_TIMEOUT_MS] have passed
    without a new call, whatever state the manager was in, no entry is left
    in the pending table, no timer is armed, and every promise ever handed
    out by [sendRequest] is settled.  ([uuidv4] never returns the same
    identifier twice.) *)
Theorem pending_table_drains
    (uuidv4 : nat -> string)
    (uuidv4_inj : forall i j, uuidv4 i = uuidv4 j -> i = j)
    (s : State) (dt : N) :
  reachable uuidv4 s ->
  (REQUEST_TIMEOUT_MS <= Z.of_N dt)%Z ->
  let s' := elapse dt s in
  pendingRequests s' = ∅
  /\ timers s' = []
  /\ forall p, p < promises s -> p ∈ (settled s').*1.
Proof.
  intros Hr Hdt s'.
  pose proof (reachable_consistent uuidv4 uuidv4_inj s Hr) as Hc.
  pose proof (reachable_timely uuidv4 uuidv4_inj s Hr) as Ht.
  assert (reachable uuidv4 s') as Hr'
    by apply (reachable_step uuidv4 (Elapse dt)), Hr.
  pose proof (reachable_consistent uuidv4 uuidv4_inj s' Hr') as Hc'.
  assert (timers s' = []) as Hnil.
  { subst s'. rewrite elapse_timers by apply Hc.
    destruct (filter _ (timers s)) as [|t rest] eqn:E; [done|].
    assert (t ∈ filter (fun t => (clock s + Z.of_N dt < deadline t)%Z) (timers s))
      as Hin by (rewrite E; apply elem_of_cons; by left).
    apply list_elem_of_filter in Hin as [Hlt Hin]. apply Ht in Hin. lia. }
  split; [|split; [done|]].
  - apply map_empty. intros rid.
    destruct (pendingRequests s' !! rid) as [pr|] eqn:E; [|done].
    destruct (pending_timer _ _ Hc' rid pr E) as [d Hd].
    rewrite Hnil in Hd. by apply elem_of_nil in Hd.
  - intros p Hp.
    assert (promises s' = promises s) as Hprom.
    { subst s'. unfold elapse.
      match goal with |- promises (fire ?due ?s0) = _ =>
        destruct (fire_counters due s0) as (_ & _ & -> & _) end. done. }
    destruct (all_accounted _ _ Hc' p) as [Hin|Hin]; [lia|done|].
    rewrite Hnil in Hin. by apply elem_of_nil in Hin.
Qed.

Lemma pending_table_drains_witness :
  let s := run uuid_of
             [Connection fresh_socket; Call "search" []; Elapse 20000;
              Call "read_note" []] initial in
  pendingRequests (elapse 30000 s) = ∅
  /\ timers (elapse 30000 s) = []
  /\ forall p, p < promises s -> p ∈ (settled (elapse 30000 s)).*1.
Proof.
  refine (pending_table_drains uuid_of uuid_of_inj
            (run uuid_of
               [Connection fresh_socket; Call "search" []; Elapse 20000;
                Call "read_note" []] initial)
            30000 (ex_intro _ _ eq_refl) _).
  vm_compute. discriminate.
Defined.

Lemma sendRequest_sent_socket
    (uuidv4 : nat -> string) (action : string) (payload : list (string * JSON))
    (s : State) (k : string) (ws : WebSocket) :
  activeConnectionId s = Some k ->
  map_get k (connections s) = Some ws ->
  is_OPEN ws = true ->
  map_get k (connections (sendRequest uuidv4 action payload s))
  = Some {| readyState := readyState ws;
            sent := sent ws ++ [FRequest {| req_id := uuidv4 (uuids s);
                                            req_action := action;
                                            req_payload := payload |}] |}.
Proof.
  intros Ha Hk Hopen.
  rewrite (sendRequest_sent uuidv4 action payload s k ws Ha Hk Hopen).
  state_simpl. rewrite map_get_set_eq. unfold ws_send. by rewrite Hopen.
Qed.

(** X7.  A dispatch on an open active connection writes exactly one frame:
    the request, carrying the drawn identifier and the caller's action and
    payload as they are, is appended to what the active socket has sent, and
    no other socket is written on; the entry is stored under that same
    identifier with a timer due [REQUEST_TIMEOUT_MS] from now, no other
    entry changes, and nothing is settled yet. *)
Theorem dispatch_writes_one_request
    (uuidv4 : nat -> string)
    (action : string) (payload : list (string * JSON))
    (s : State) (k : string) (ws : WebSocket) :
  activeConnectionId s = Some k ->
  map_get k (connections s) = Some ws ->
  is_OPEN ws = true ->
  let rid := uuidv4 (uuids s) in
  let s' := sendRequest uuidv4 action payload s in
  map_get k (connections s')
  = Some {| readyState := readyState ws;
            sent := sent ws ++ [FRequest {| req_id := rid; req_action := action;
                                            req_payload := payload |}] |}
  /\ (forall k', k' <> k -> map_get k' (connections s') = map_get k' (connections s))
  /\ pendingRequests s' !! rid
     = Some {| promise := promises s; timeout := timerIds s |}
  /\ (forall rid', rid' <> rid ->
        pendingRequests s' !! rid' = pendingRequests s !! rid')
  /\ timers s'
     = timers s ++ [{| timerId := timerIds s;
                       deadline := clock s + REQUEST_TIMEOUT_MS;
                       t_requestId := rid; t_promise := promises s |}]
  /\ settled s' = settled s
  /\ promises s' = S (promises s).
Proof.
  intros Ha Hk Hopen rid s'. subst s' rid.
  split; [by apply sendRequest_sent_socket|].
  rewrite (sendRequest_sent uuidv4 action payload s k ws Ha Hk Hopen).
  unfold armed. state_simpl.
  split; [intros k' Hne; by apply map_get_set_ne|].
  split; [by rewrite lookup_insert_eq|].
  split; [intros rid' Hne; by rewrite lookup_insert_ne|]. done.
Qed.

Lemma dispatch_writes_one_request_witness :
  let s := run uuid_of connected_trace initial in
  let s' := sendRequest uuid_of "search" [("query", JString "rocq")] s in
  map_get (uuid_of 0) (connections s')
  = Some {| readyState := OPEN;
            sent := [FConnected (uuid_of 0);
                     FRequest {| req_id := uuid_of 1; req_action := "search";
                                 req_payload := [("query", JString "rocq")] |}] |}.
Proof.
  exact (proj1 (dispatch_writes_one_request uuid_of "search"
                  [("query", JString "rocq")]
                  (run uuid_of connected_trace initial) (uuid_of 0)
                  {| readyState := OPEN; sent := [FConnected (uuid_of 0)] |}
                  eq_refl eq_refl eq_refl)).
Defined.

(** X8.  Responses and timeouts never touch a socket: handling a message
    (a matching response, an unknown one, or a frame that does not parse) and
    letting time pass (whatever timers fire) leave every tracked socket, what
    was sent on it, and the active connection exactly as they were. *)
Theorem responses_and_timeouts_leave_sockets
    (data : option BridgeResponse) (dt : N) (s : State) :
  connections (on_message data s) = connections s
  /\ activeConnectionId (on_message data s) = activeConnectionId s
  /\ connections (elapse dt s) = connections s
  /\ activeConnectionId (elapse dt s) = activeConnectionId s.
Proof.
  destruct (on_message_connections data s) as [H1 H2].
  destruct (elapse_connections dt s) as [H3 H4]. done.
Qed.

Section Tracked.
Variable uuidv4 : nat -> string.

Lemma step_tracked e s k :
  closes k e = false ->
  In k (map_keys (connections s)) ->
  In k (map_keys (connections (step uuidv4 e s))).
Proof.
  intros Hcl Hin.
  destruct (is_connection e) eqn:Hc; [|destruct (is_close e) eqn:Hd].
  - destruct e as [ws| | | | | |]; try done. cbn [step].
    rewrite addConnection_connections, !map_keys_set_In. auto.
  - destruct e as [|c| | | | |]; try done. cbn [step closes] in *.
    rewrite on_close_connections. apply map_keys_delete_In. split; [|done].
    apply String.eqb_neq in Hcl. congruence.
  - by destruct (step_keeps_active uuidv4 e s Hc Hd) as [_ ->].
Qed.

Lemma step_tracked_inv e s k :
  In k (map_keys (connections (step uuidv4 e s))) ->
  (exists ws, e = Connection ws /\ k = uuidv4 (uuids s))
  \/ (closes k e = false /\ In k (map_keys (connections s))).
Proof.
  destruct (is_connection e) eqn:Hc; [|destruct (is_close e) eqn:Hd].
  - destruct e as [ws| | | | | |]; try done. cbn [step].
    rewrite addConnection_connections, !map_keys_set_In.
    intros [->|[->|Hin]]; eauto.
  - destruct e as [|c| | | | |]; try done. cbn [step closes].
    rewrite on_close_connections. intros Hin.
    apply map_keys_delete_In in Hin as [Hne Hin]. right. split; [|done].
    apply String.eqb_neq. congruence.
  - destruct (step_keeps_active uuidv4 e s Hc Hd) as [_ ->]. intros Hin.
    right. split; [|done]. by destruct e.
Qed.
End Tracked.

(** X9.  The connections map holds exactly the connections that were
    registered and have not closed since: after any events, an identifier is
    a key of the map if and only if some [addConnection] in the run returned
    it and no close event for it came after that. *)
Theorem tracked_iff_registered_and_not_closed
    (uuidv4 : nat -> string) (tr : list Event) (k : string) :
  In k (map_keys (connections (run uuidv4 tr initial)))
  <-> exists tr1 ws tr2,
        tr = tr1 ++ Connection ws :: tr2
        /\ k = uuidv4 (uuids (run uuidv4 tr1 initial))
        /\ Forall (fun e => closes k e = false) tr2.
Proof.
  induction tr as [|e tr IH] using rev_ind.
  - split; [done|]. intros (tr1 & ws & tr2 & Heq & _).
    by destruct tr1.
  - rewrite run_snoc. split.
    + intros Hin. apply step_tracked_inv in Hin as [(ws & -> & ->)|[Hcl Hin]].
      * exists tr, ws, []. by repeat split.
      * apply IH in Hin as (tr1 & ws & tr2 & -> & Hk & Hall).
        exists tr1, ws, (tr2 ++ [e]). split; [by rewrite <- app_assoc|].
        split; [done|]. apply Forall_app. split; [done|]. by apply Forall_singleton.
    + intros (tr1 & ws & tr2 & Heq & Hk & Hall).
      destruct tr2 as [|e' tr2 _] using rev_ind.
      * apply app_inj_tail in Heq as [-> ->]. cbn [step].
        rewrite addConnection_connections, !map_keys_set_In. auto.
      * rewrite app_comm_cons, app_assoc in Heq.
        apply app_inj_tail in Heq as [-> ->].
        apply Forall_app in Hall as [Hall He]. rewrite Forall_singleton in He.
        apply step_tracked; [done|]. apply IH. by exists tr1, ws, tr2.
Qed.

(** * Properties of the plugin *)

Section SliceLast.
Context {A : Type}.

Lemma slice_last_short (n : nat) (l : list A) :
  length l <= n -> Plugin.slice_last n l = l.
Proof.
  intros H. unfold Plugin.slice_last.
  by replace (length l - n) with 0 by lia.
Qed.

Lemma slice_last_length (n : nat) (l : list A) :
  length (Plugin.slice_last n l) = Nat.min n (length l).
Proof. unfold Plugin.slice_last. rewrite length_drop. lia. Qed.

Lemma slice_last_snoc (n : nat) (l : list A) (x : A) :
  0 < n ->
  Plugin.slice_last n (Plugin.slice_last n l ++ [x]) = Plugin.slice_last n (l ++ [x]).
Proof.
  intros Hn. destruct (decide (length l <= n)) as [Hle|Hgt].
  - by rewrite (slice_last_short n l).
  - unfold Plugin.slice_last at 1 3.
    rewrite !length_app, slice_last_length. simpl.
    replace (Nat.min n (length l) + 1 - n) with 1 by lia.
    unfold Plugin.slice_last.
    rewrite !drop_app_le by (rewrite ?length_drop; lia).
    rewrite drop_drop. f_equal. f_equal. lia.
Qed.
End SliceLast.

Lemma addLog_logs (now : Z) (msg : string) (lvl : Plugin.LogLevel) (st : Plugin.State) :
  Plugin.logs (Plugin.addLog now msg lvl st)
  = Plugin.slice_last 50
      (Plugin.logs st
       ++ [{| Plugin.timestamp := now; Plugin.message := msg; Plugin.level := lvl |}]).
Proof.
  unfold Plugin.addLog. cbn [Plugin.logs].
  destruct (Nat.ltb_spec 50 (length (Plugin.logs st ++
    [{| Plugin.timestamp := now; Plugin.message := msg; Plugin.level := lvl |}])));
    [done|].
  by rewrite slice_last_short.
Qed.

(** X10.  The log of the plugin is a buffer of the 50 most recent entries:
    after any number of calls of [addLog] on a log that holds at most 50
    entries, the log is the last 50 of the old entries followed by the new
    ones, in the order they were logged, so it never holds more than 50 and
    the newest entry is never dropped. *)
Theorem addLog_keeps_last_50 (es : list Plugin.LogEntry) (st : Plugin.State) :
  length (Plugin.logs st) <= 50 ->
  Plugin.logs (Plugin.addLogs es st) = Plugin.slice_last 50 (Plugin.logs st ++ es)
  /\ length (Plugin.logs (Plugin.addLogs es st)) <= 50
  /\ (forall e, last es = Some e -> last (Plugin.logs (Plugin.addLogs es st)) = Some e).
Proof.
  intros Hlen.
  assert (Plugin.logs (Plugin.addLogs es st)
          = Plugin.slice_last 50 (Plugin.logs st ++ es)) as Heq.
  { induction es as [|e es IH] using rev_ind.
    - simpl. rewrite app_nil_r. by rewrite slice_last_short.
    - unfold Plugin.addLogs in *. rewrite fold_left_app. cbn [fold_left].
      rewrite addLog_logs, IH. destruct e as [t m l]. cbn.
      rewrite slice_last_snoc by lia. by rewrite <- app_assoc. }
  split; [done|]. rewrite Heq. split.
  - rewrite slice_last_length. lia.
  - intros e He. apply last_Some in He as [es' ->].
    rewrite app_assoc. unfold Plugin.slice_last.
    rewrite drop_app_le by (rewrite !length_app; simpl; lia).
    by rewrite last_snoc.
Qed.

Lemma addLog_keeps_last_50_witness :
  let es := (fun n => {| Plugin.timestamp := Z.of_nat n;
                         Plugin.message := pretty n;
                         Plugin.level := Plugin.info |}) <$> seq 0 60 in
  length (Plugin.logs (Plugin.addLogs es Plugin.initial)) <= 50.
Proof.
  refine (proj1 (proj2 (addLog_keeps_last_50 _ Plugin.initial _))).
  simpl. lia.
Defined.

(** X11.  A request the plugin cannot serve fails without touching the
    counters.  With no adapter ([remAdapter] is [null]) the error is
    "RemAdapter not initialized" and nothing at all changes, not even the
    log; with an adapter and an action that is none of the six the tools
    send, the error is "Unknown action: " followed by the action, whatever
    the adapter would answer, and the only change is the "Received action"
    line in the log. *)
Theorem handleRequest_rejects
    (now : Z) (adapter : Plugin.AdapterCall -> option JSON + string)
    (request : BridgeRequest) (st : Plugin.State) :
  Plugin.remAdapter st = false \/ (forall t, req_action request <> tool_action t) ->
  let r := Plugin.handleRequest now adapter request st in
  fst r = inr (if Plugin.remAdapter st
               then "Unknown action: " +:+ req_action request
               else "RemAdapter not initialized")
  /\ Plugin.stats (snd r) = Plugin.stats st
  /\ snd r = (if Plugin.remAdapter st
              then Plugin.addLog now ("Received action: " +:+ req_action request)
                                 Plugin.info st
              else st).
Proof.
  intros H r. subst r. unfold Plugin.handleRequest.
  destruct (Plugin.remAdapter st) eqn:Hready; cbn [negb]; [|done].
  destruct H as [H|H]; [done|].
  destruct (String.eqb_spec (req_action request) "create_note") as [Heq|_];
    [by destruct (H remnote_create_note)|].
  destruct (String.eqb_spec (req_action request) "append_journal") as [Heq|_];
    [by destruct (H remnote_append_journal)|].
  destruct (String.eqb_spec (req_action request) "search") as [Heq|_];
    [by destruct (H remnote_search)|].
  destruct (String.eqb_spec (req_action request) "read_note") as [Heq|_];
    [by destruct (H remnote_read_note)|].
  destruct (String.eqb_spec (req_action request) "update_note") as [Heq|_];
    [by destruct (H remnote_update_note)|].
  destruct (String.eqb_spec (req_action request) "get_status") as [Heq|_];
    [by destruct (H remnote_status)|].
  done.
Qed.

Lemma handleRequest_rejects_witness :
  let request := {| req_id := "r1"; req_action := "delete_note"; req_payload := [] |} in
  let st := Plugin.set_remAdapter true Plugin.initial in
  let r := Plugin.handleRequest 0 (fun _ => inl None) request st in
  fst r = inr "Unknown action: delete_note"
  /\ Plugin.stats (snd r) = Plugin.stats st.
Proof.
  assert (forall t, "delete_note" <> tool_action t) as H by (by intros []).
  pose proof (handleRequest_rejects 0 (fun _ => inl None)
                {| req_id := "r1"; req_action := "delete_note"; req_payload := [] |}
                (Plugin.set_remAdapter true Plugin.initial) (or_intror H)) as Hw.
  exact (conj (proj1 Hw) (proj1 (proj2 Hw))).
Defined.



Lemma tool_payload_get (t : Tool) (args : list (string * JSON)) (f : string) :
  In f (tool_fields t) -> map_get f (tool_payload t args) = map_get f args.
Proof.
  destruct t; simpl; intros H; repeat destruct H as [<-|H]; try done;
    unfold tool_payload; simpl;
    repeat match goal with
    | |- context [match map_get ?k args with _ => _ end] =>
        destruct (map_get k args) eqn:?
    end; simpl; congruence.
Qed.

(** X13.  The tools of the server and the plugin agree.  For each of the six
    tools, the request its handler sends (its action, and a payload holding
    the arguments that were given) is one the plugin knows: with an adapter
    in place, [handleRequest] answers it with whatever the matching method of
    the adapter answers, and that method is called with every declared
    argument of the tool at the value the caller gave it, or [undefined] if
    the caller gave none. *)
Theorem tool_arguments_reach_adapter
    (t : Tool) (args : list (string * JSON))
    (now : Z) (adapter : Plugin.AdapterCall -> option JSON + string)
    (rid : string) (st : Plugin.State) :
  Plugin.remAdapter st = true ->
  fst (Plugin.handleRequest now adapter
         {| req_id := rid; req_action := tool_action t;
            req_payload := tool_payload t args |} st)
  = adapter {| Plugin.method := adapter_method t;
               Plugin.arguments := (fun f => (f, map_get f args)) <$> tool_fields t |}.
Proof.
  intros Hready. unfold Plugin.handleRequest, Plugin.field. rewrite Hready.
  cbn [negb req_action req_payload].
  destruct t; cbn [tool_action adapter_method tool_fields fmap list_fmap];
    simpl String.eqb; cbv iota;
    rewrite ?tool_payload_get by (simpl; tauto);
    match goal with |- context [adapter ?c] => by destruct (adapter c) end.
Qed.

Lemma tool_arguments_reach_adapter_witness :
  let adapter := fun c : Plugin.AdapterCall =>
                   if String.eqb (Plugin.method c) "readNote"
                   then inl (Some (JArray (omap snd (Plugin.arguments c))))
                   else inr "unexpected" in
  fst (Plugin.handleRequest 7 adapter
         {| req_id := "r1"; req_action := "read_note";
            req_payload := tool_payload remnote_read_note
                             [("depth", JNumber 2); ("remId", JString "abc")] |}
         (Plugin.set_remAdapter true Plugin.initial))
  = inl (Some (JArray [JString "abc"; JNumber 2])).
Proof.
  exact (tool_arguments_reach_adapter remnote_read_note
           [("depth", JNumber 2); ("remId", JString "abc")] 7
           (fun c : Plugin.AdapterCall =>
              if String.eqb (Plugin.method c) "readNote"
              then inl (Some (JArray (omap snd (Plugin.arguments c))))
              else inr "unexpected")
           "r1" (Plugin.set_remAdapter true Plugin.initial) eq_refl).
Defined.

(** X14.  How [initializeConnection] reads the settings.  A string setting
    that is missing or empty is replaced by its default (the parent id by the
    empty string), and a non-empty stored value is used as it is; so with
    non-empty defaults the server URL, the tag and the journal prefix are
    never empty.  A boolean setting is replaced by [true] only when it is
    missing: a stored value, [false] included, is used as it is. *)
Theorem settings_fall_back_to_defaults
    (DEFAULT_WS_URL DEFAULT_AUTO_TAG DEFAULT_JOURNAL_PREFIX : string)
    (stored : Plugin.StoredSettings) :
  DEFAULT_WS_URL <> "" -> DEFAULT_AUTO_TAG <> "" -> DEFAULT_JOURNAL_PREFIX <> "" ->
  let m := Plugin.resolve_settings DEFAULT_WS_URL DEFAULT_AUTO_TAG
             DEFAULT_JOURNAL_PREFIX stored in
  let unset := fun o : option string => o = None \/ o = Some "" in
  Plugin.wsUrl m <> "" /\ Plugin.autoTag m <> "" /\ Plugin.journalPrefix m <> ""
  /\ (forall v, v <> "" ->
        (Plugin.stored_wsUrl stored = Some v -> Plugin.wsUrl m = v)
        /\ (Plugin.stored_autoTag stored = Some v -> Plugin.autoTag m = v)
        /\ (Plugin.stored_journalPrefix stored = Some v -> Plugin.journalPrefix m = v)
        /\ (Plugin.stored_defaultParentId stored = Some v ->
            Plugin.defaultParentId m = v))
  /\ (Plugin.autoTagEnabled m = false
      <-> Plugin.stored_autoTagEnabled stored = Some false)
  /\ (Plugin.journalTimestamp m = false
      <-> Plugin.stored_journalTimestamp stored = Some false)
  /\ (unset (Plugin.stored_wsUrl stored) -> Plugin.wsUrl m = DEFAULT_WS_URL)
  /\ (unset (Plugin.stored_autoTag stored) -> Plugin.autoTag m = DEFAULT_AUTO_TAG)
  /\ (unset (Plugin.stored_journalPrefix stored) ->
      Plugin.journalPrefix m = DEFAULT_JOURNAL_PREFIX)
  /\ (unset (Plugin.stored_defaultParentId stored) -> Plugin.defaultParentId m = "")
  /\ (Plugin.stored_autoTagEnabled stored = None -> Plugin.autoTagEnabled m = true)
  /\ (Plugin.stored_journalTimestamp stored = None ->
      Plugin.journalTimestamp m = true)
  /\ (forall b, Plugin.stored_autoTagEnabled stored = Some b ->
                Plugin.autoTagEnabled m = b)
  /\ (forall b, Plugin.stored_journalTimestamp stored = Some b ->
                Plugin.journalTimestamp m = b).
Proof.
  intros H1 H2 H3 m unset. subst m unset. unfold Plugin.resolve_settings.
  cbn [Plugin.wsUrl Plugin.autoTag Plugin.journalPrefix Plugin.defaultParentId
       Plugin.autoTagEnabled Plugin.journalTimestamp].
  assert (Hne : forall v d, d <> "" -> Plugin.or_else v d <> "").
  { intros [v|] d Hd; simpl; [|done].
    by destruct (String.eqb_spec v ""). }
  assert (Hkeep : forall o v d, v <> "" -> o = Some v -> Plugin.or_else o d = v).
  { intros o v d Hv ->. simpl. by destruct (String.eqb_spec v ""). }
  assert (Hbool : forall o, Plugin.nullish_else o true = false <-> o = Some false).
  { intros [[]|]; simpl; split; congruence. }
  assert (Hdef : forall o d, o = None \/ o = Some "" -> Plugin.or_else o d = d).
  { by intros o d [-> | ->]. }
  assert (Hmiss : forall d, Plugin.nullish_else None d = d) by done.
  assert (Hgiven : forall o b d, o = Some b -> Plugin.nullish_else o d = b).
  { by intros o b d ->. }
  split; [by apply Hne|]. split; [by apply Hne|]. split; [by apply Hne|].
  split; [intros v Hv; repeat split; by apply Hkeep|].
  split; [apply Hbool|]. split; [apply Hbool|].
  split; [apply Hdef|]. split; [apply Hdef|]. split; [apply Hdef|].
  split; [apply Hdef|].
  split; [by intros ->|]. split; [by intros ->|].
  split; intros b Hb; by apply Hgiven.
Qed.

Lemma settings_fall_back_to_defaults_witness :
  let stored := {| Plugin.stored_wsUrl := Some "";
                   Plugin.stored_autoTagEnabled := Some false;
                   Plugin.stored_autoTag := None;
                   Plugin.stored_journalPrefix := Some "[AI]";
                   Plugin.stored_journalTimestamp := None;
                   Plugin.stored_defaultParentId := None |} in
  let m := Plugin.resolve_settings "ws://127.0.0.1:3002" "MCP" "[Claude]" stored in
  Plugin.wsUrl m = "ws://127.0.0.1:3002" /\ Plugin.autoTag m = "MCP"
  /\ Plugin.journalPrefix m = "[AI]" /\ Plugin.defaultParentId m = ""
  /\ Plugin.autoTagEnabled m = false /\ Plugin.journalTimestamp m = true.
Proof.
  pose proof (settings_fall_back_to_defaults "ws://127.0.0.1:3002" "MCP" "[Claude]"
                {| Plugin.stored_wsUrl := Some "";
                   Plugin.stored_autoTagEnabled := Some false;
                   Plugin.stored_autoTag := None;
                   Plugin.stored_journalPrefix := Some "[AI]";
                   Plugin.stored_journalTimestamp := None;
                   Plugin.stored_defaultParentId := None |}
                ltac:(discriminate) ltac:(discriminate) ltac:(discriminate)) as H.
  destruct H as (_ & _ & _ & Hkeep & _ & _ & Hws & Htag & _ & Hparent
                 & _ & Hts & Hen & _).
  destruct (Hkeep "[AI]" ltac:(discriminate)) as (_ & _ & Hprefix & _).
  exact (conj (Hws (or_intror eq_refl))
           (conj (Htag (or_introl eq_refl))
              (conj (Hprefix eq_refl)
                 (conj (Hparent (or_introl eq_refl))
                    (conj (Hen false eq_refl) (Hts eq_refl)))))).
Defined.

(** * Properties of the HTTP side *)

Set Warnings "-clear-no-such-hyp".

Lemma http_run_open_after (tr : list Http.Event) (sid : string) (t : gset string) (b : bool) :
  (sid ∈ t <-> b = true) ->
  (sid ∈ Http.run tr t <-> Http.open_after sid tr b = true).
Proof.
  revert t b. induction tr as [|e tr IH]; intros t b Hb; [done|].
  cbn [Http.run fold_left Http.open_after]. apply IH.
  destruct e as [sid' o|sid'|q o]; cbn [Http.step Http.opens Http.closes].
  - assert ((Http.get_sse sid' o t).2 = {[sid']} ∪ t) as ->
      by (unfold Http.get_sse; by destruct o).
    destruct (String.eqb_spec sid' sid) as [->|Hne]; [set_solver|].
    rewrite <- Hb. set_solver.
  - unfold Http.on_transport_close.
    destruct (String.eqb_spec sid' sid) as [->|Hne]; [set_solver|].
    rewrite <- Hb. set_solver.
  - done.
Qed.

(** X15.  A session is served exactly while it is open.  After any sequence
    of [/sse] requests, transport closes and posts, a POST to [/messages]
    with a non-empty session id is handed to that session's transport if the
    last event that opened or closed the session was a [/sse] request for it
    (whether or not connecting the MCP server to the transport succeeded),
    and is answered 404 "Session not found" otherwise; the route itself
    answers 500 only when the transport throws before sending headers.  A
    missing or empty session id is answered 400 "Missing sessionId". *)
Theorem messages_are_served_while_session_is_open
    (tr : list Http.Event) (sid : string) (o : Http.Outcome) :
  sid <> "" ->
  let t := Http.run tr ∅ in
  Http.post_messages (Some sid) o t
  = (if Http.open_after sid tr false then
       match o with
       | Http.completed => Http.forwarded sid
       | Http.threw headersSent =>
           if headersSent then Http.forwarded sid
           else Http.reply 500 "Request failed"
       end
     else Http.reply 404 "Session not found")
  /\ Http.post_messages None o t = Http.reply 400 "Missing sessionId"
  /\ Http.post_messages (Some "") o t = Http.reply 400 "Missing sessionId".
Proof.
  intros Hne t. split; [|done]. unfold Http.post_messages.
  apply String.eqb_neq in Hne. rewrite Hne.
  pose proof (http_run_open_after tr sid ∅ false) as H.
  destruct (Http.open_after sid tr false).
  - rewrite decide_True; [done|]. apply H; [set_solver|done].
  - rewrite decide_False; [done|]. intros Hin. apply H in Hin; [done|set_solver].
Qed.

Lemma messages_are_served_while_session_is_open_witness :
  let tr := [Http.Sse "s1" Http.completed; Http.Sse "s2" (Http.threw false);
             Http.TransportClosed "s1"] in
  Http.post_messages (Some "s1") Http.completed (Http.run tr ∅)
  = Http.reply 404 "Session not found"
  /\ Http.post_messages (Some "s2") Http.completed (Http.run tr ∅)
     = Http.forwarded "s2".
Proof.
  split.
  - exact (proj1 (messages_are_served_while_session_is_open
                    [Http.Sse "s1" Http.completed; Http.Sse "s2" (Http.threw false);
                     Http.TransportClosed "s1"] "s1" Http.completed
                    ltac:(discriminate))).
  - exact (proj1 (messages_are_served_while_session_is_open
                    [Http.Sse "s1" Http.completed; Http.Sse "s2" (Http.threw false);
                     Http.TransportClosed "s1"] "s2" Http.completed
                    ltac:(discriminate))).
Defined.

(** X16.  What [/health] reports.  [pluginConnected] is true exactly when
    some plugin connection is tracked; [activeSessions] counts each open
    session once: a [/sse] request for a new session adds one, one for a
    session that is already stored adds none, the close of a stored session
    takes one away and the close of any other changes nothing.  (Connection
    identifiers are not empty strings.) *)
Theorem health_reports_connections_and_sessions
    (uuidv4 : nat -> string)
    (uuidv4_nonempty : forall n, uuidv4 n <> "")
    (s : State) (t : gset string) (sid : string) (o : Http.Outcome) :
  reachable uuidv4 s ->
  let count := fun t' => Http.activeSessions (Http.get_health s t') in
  (Http.pluginConnected (Http.get_health s t) = true <-> connections s <> [])
  /\ count (snd (Http.get_sse sid o t))
     = (if decide (sid ∈ t) then count t else S (count t))
  /\ (if decide (sid ∈ t)
      then S (count (Http.on_transport_close sid t)) = count t
      else count (Http.on_transport_close sid t) = count t).
Proof.
  intros Hr count. subst count. cbn [Http.get_health Http.activeSessions
                                     Http.pluginConnected].
  split; [by apply (reachable_hasActiveConnection uuidv4)|].
  assert ((Http.get_sse sid o t).2 = {[sid]} ∪ t) as ->
    by (unfold Http.get_sse; by destruct o).
  unfold Http.on_transport_close.
  destruct (decide (sid ∈ t)) as [Hin|Hnin].
  - split.
    + f_equal. set_solver.
    + rewrite size_difference by set_solver. rewrite size_singleton.
      assert (size t <> 0) by (intros H0; apply size_empty_inv in H0; set_solver).
      lia.
  - split.
    + rewrite size_union by set_solver. by rewrite size_singleton.
    + f_equal. set_solver.
Qed.

Lemma health_reports_connections_and_sessions_witness :
  let s := run uuid_of connected_trace initial in
  Http.pluginConnected (Http.get_health s ∅) = true <-> connections s <> [].
Proof.
  exact (proj1 (health_reports_connections_and_sessions uuid_of uuid_of_nonempty
                  (run uuid_of connected_trace initial) ∅ "s1" Http.completed
                  (ex_intro _ connected_trace eq_refl))).
Defined.

(** * Properties of the tools *)

Lemma tool_payload_keys (t : Tool) (args : list (string * JSON)) :
  map_keys (tool_payload t args)
  = filter (fun f => is_Some (map_get f args)) (tool_fields t).
Proof.
  unfold tool_payload, map_keys.
  induction (tool_fields t) as [|f fs IH]; [done|].
  cbn [flat_map]. rewrite map_app, IH, filter_cons.
  destruct (map_get f args) as [v|].
  - rewrite decide_True by (by eexists). done.
  - rewrite decide_False by (by intros [? ?]). done.
Qed.

(** X17.  With no plugin connected, a tool answers at once and nothing is
    left behind: no socket is written on, no identifier is drawn, no entry is
    stored and no timer armed.  The five data tools get the rejection "No
    RemNote plugin connected. ..." from [sendRequest]; [remnote_status] does
    not call [sendRequest] at all, so no promise is created for it. *)
Theorem tools_fail_fast_without_plugin
    (uuidv4 : nat -> string) (t : Tool) (args : list (string * JSON)) (s : State) :
  hasActiveConnection s = false ->
  let s' := tool_dispatch uuidv4 t args s in
  connections s' = connections s
  /\ pendingRequests s' = pendingRequests s
  /\ timers s' = timers s
  /\ uuids s' = uuids s
  /\ settled s'
     = settled s ++ match t with
                    | remnote_status => []
                    | _ => [(promises s, Rejected NO_PLUGIN_MESSAGE)]
                    end
  /\ promises s' = match t with
                   | remnote_status => promises s
                   | _ => S (promises s)
                   end.
Proof.
  intros Hh s'. subst s'. unfold tool_dispatch.
  destruct t; rewrite ?Hh, ?sendRequest_no_connection by done;
    state_simpl; by rewrite ?app_nil_r.
Qed.

Lemma tools_fail_fast_without_plugin_witness :
  let s' := tool_dispatch uuid_of remnote_search [("query", JString "x")] initial in
  settled s' = [(0, Rejected NO_PLUGIN_MESSAGE)] /\ connections s' = [].
Proof.
  pose proof (tools_fail_fast_without_plugin uuid_of remnote_search
                [("query", JString "x")] initial eq_refl) as H.
  exact (conj (proj1 (proj2 (proj2 (proj2 (proj2 H))))) (proj1 H)).
Defined.

(** X18.  With an open active connection, every tool writes exactly one
    request on the active socket: its action is the tool's, and its payload
    holds the declared arguments of the tool that the caller gave, in the
    order the tool declares them, at the values given, and nothing else;
    an argument the tool does not declare is never forwarded. *)
Theorem tools_send_declared_arguments
    (uuidv4 : nat -> string) (t : Tool) (args : list (string * JSON))
    (s : State) (k : string) (ws : WebSocket) :
  activeConnectionId s = Some k ->
  map_get k (connections s) = Some ws ->
  is_OPEN ws = true ->
  let s' := tool_dispatch uuidv4 t args s in
  map_get k (connections s')
  = Some {| readyState := readyState ws;
            sent := sent ws ++ [FRequest {| req_id := uuidv4 (uuids s);
                                            req_action := tool_action t;
                                            req_payload := tool_payload t args |}] |}
  /\ map_keys (tool_payload t args)
     = filter (fun f => is_Some (map_get f args)) (tool_fields t)
  /\ (forall f, In f (tool_fields t) ->
        map_get f (tool_payload t args) = map_get f args)
  /\ (forall f, ~ In f (tool_fields t) -> map_get f (tool_payload t args) = None).
Proof.
  intros Ha Hk Hopen s'. split; [|split; [apply tool_payload_keys|split]].
  - assert (s' = sendRequest uuidv4 (tool_action t) (tool_payload t args) s) as ->.
    { subst s'. unfold tool_dispatch. destruct t; try done.
      assert (hasActiveConnection s = true) as ->; [|done].
      apply writable_hasActiveConnection. unfold writable. by rewrite Ha, Hk. }
    by apply sendRequest_sent_socket.
  - intros f Hf. by apply tool_payload_get.
  - intros f Hf.
    destruct (map_get f (tool_payload t args)) as [v|] eqn:E; [|done].
    exfalso. apply Hf.
    assert (In f (map_keys (tool_payload t args))) as Hin
      by (apply map_get_keys; by eexists).
    rewrite tool_payload_keys in Hin.
    apply list_elem_of_In, list_elem_of_filter in Hin as [_ Hin].
    by apply list_elem_of_In.
Qed.

Lemma tools_send_declared_arguments_witness :
  let s := run uuid_of connected_trace initial in
  let args := [("limit", JNumber 5); ("verbose", JBool true);
               ("query", JString "rocq")] in
  let s' := tool_dispatch uuid_of remnote_search args s in
  map_get (uuid_of 0) (connections s')
  = Some {| readyState := OPEN;
            sent := [FConnected (uuid_of 0);
                     FRequest {| req_id := uuid_of 1; req_action := "search";
                                 req_payload := [("query", JString "rocq");
                                                 ("limit", JNumber 5)] |}] |}.
Proof.
  exact (proj1 (tools_send_declared_arguments uuid_of remnote_search
                  [("limit", JNumber 5); ("verbose", JBool true);
                   ("query", JString "rocq")]
                  (run uuid_of connected_trace initial) (uuid_of 0)
                  {| readyState := OPEN; sent := [FConnected (uuid_of 0)] |}
                  eq_refl eq_refl eq_refl)).
Defined.
